(** * Document coordination and queue batch processing

    A shallow embedding of the queue-processor application
    (apps/queue-processor/src):

    - [DocumentCoordinator] (module [./coordination]): the Durable Object that
      is to keep locks, processing states and content hashes in one key-value
      storage;
    - [createQueueProcessorContext.getCoordinator] (module [./context]): the
      routing of a document id to its coordinator instance;
    - the interfaces of module [./types];
    - [handleDocumentIngestion], [handleWebhookProcessing],
      [handleBatchReprocessing] and [queueHandler] (index.ts): the batch
      dispatchers of the queues;
    - [BatchProcessor] (processors/batch-processor.ts);
    - [DocumentProcessor] (processors/document-processor.ts).

    The sources of the three modules [./coordination], [./context] and
    [./types] are the sections of processors/webhook-processor.ts that follow
    the [WebhookProcessor] class.

    Conventions.  Timestamps and counters are JavaScript numbers holding
    integers; they are modelled in [Z] (or [nat] for counters and indices that
    the code only increments from zero).  Where a parameter may be any number,
    it is an IEEE 754 double, [float].  [Date.now()] and [crypto.randomUUID()]
    are inputs of the handlers.  Logging ([console.log], [logEvent],
    [logMetric]) has no effect on the values studied here and is left out. *)

From Stdlib Require Import ZArith String Ascii List Lia Bool Floats Uint63.
From stdpp Require Import base option gmap strings list fin_maps.

Open Scope Z_scope.

(** ** Coordination types (module [./types]) *)

Inductive LockType := lt_processing | lt_updating | lt_deleting.

(** A [DocumentLock] as the coordinator writes it; the optional [metadata] of
    the interface is never set by the code and is left out. *)
Module DocumentLock.
Record t := mk {
  documentId : string;
  lockId : string;
  lockType : LockType;
  acquiredAt : Z;
  expiresAt : Z;
  workerId : string
}.
End DocumentLock.
Abbreviation DocumentLock := DocumentLock.t.

Inductive Status := queued | processing | completed | failed | cancelled.

Record Progress := {
  currentStep : string;
  stepsCompleted : Z;
  totalSteps : Z;
  percentage : Z
}.

(** A [ProcessingState] as it travels in a request body and as it sits in the
    storage: callers send partial objects, so every field but the document id
    (from which the storage key is computed) may be absent.  The free-form
    [metadata] is a list of key-value pairs. *)
Module ProcessingState.
Record t := mk {
  documentId : string;
  status : option Status;
  progress : option Progress;
  startedAt : option Z;
  lastUpdatedAt : option Z;
  completedAt : option Z;
  error : option string;
  metadata : option (list (string * string))
}.
End ProcessingState.
Abbreviation ProcessingState := ProcessingState.t.

Inductive DedupAction := skip | update | create_new.

Module DeduplicationResult.
Record t := mk {
  isDuplicate : bool;
  existingDocumentId : option string;
  contentHash : string;
  action : DedupAction;
  reason : option string
}.
End DeduplicationResult.
Abbreviation DeduplicationResult := DeduplicationResult.t.

Record CleanupResults := {
  expiredLocks : nat;
  oldStates : nat;
  oldHashes : nat
}.

#[global] Instance LockType_eq_dec : EqDecision LockType.
Proof. solve_decision. Defined.
#[global] Instance DocumentLock_eq_dec : EqDecision DocumentLock.
Proof. solve_decision. Defined.
#[global] Instance Status_eq_dec : EqDecision Status.
Proof. solve_decision. Defined.
#[global] Instance Progress_eq_dec : EqDecision Progress.
Proof. solve_decision. Defined.
#[global] Instance ProcessingState_eq_dec : EqDecision ProcessingState.
Proof. solve_decision. Defined.

(** ** The Durable Object storage

    One storage holds three kinds of values under string keys, told apart by
    the key prefixes [lock:], [state:] and [hash:]. *)

Inductive Stored :=
| SLock (lock : DocumentLock)
| SState (state : ProcessingState)
| SHash (documentId : string).

#[global] Instance Stored_eq_dec : EqDecision Stored.
Proof. solve_decision. Defined.

Abbreviation Storage := (gmap string Stored).

Definition lockKey (documentId : string) : string := "lock:" +:+ documentId.
Definition stateKey (documentId : string) : string := "state:" +:+ documentId.
Definition hashKey (contentHash : string) : string := "hash:" +:+ contentHash.

(** [storage.get<T>(key)]: the value under [key], read at type [T].  A value
    of another shape under the key cannot arise (see [reachable_wf]); the
    model reads it as absent. *)
Definition get_lock (storage : Storage) (key : string) : option DocumentLock :=
  match storage !! key with Some (SLock l) => Some l | _ => None end.

Definition get_state (storage : Storage) (key : string) : option ProcessingState :=
  match storage !! key with Some (SState s) => Some s | _ => None end.

Definition get_hash (storage : Storage) (key : string) : option string :=
  match storage !! key with Some (SHash d) => Some d | _ => None end.

(** [String.prototype.startsWith]. *)
Fixpoint startsWith (s searchString : string) {struct searchString} : bool :=
  match searchString with
  | EmptyString => true
  | String c p =>
      match s with
      | EmptyString => false
      | String c' s' => Ascii.eqb c' c && startsWith s' p
      end
  end.

(** ** JavaScript helpers shared by the processors *)

(** [Array.prototype.slice(start, end)], negative indices counting from the
    end of the array. *)
Definition slice {A} (l : list A) (start end_ : Z) : list A :=
  let len := Z.of_nat (length l) in
  let k := if start <? 0 then Z.max (len + start) 0 else Z.min start len in
  let final := if end_ <? 0 then Z.max (len + end_) 0 else Z.min end_ len in
  take (Z.to_nat (final - k)) (drop (Z.to_nat k) l).

(** [s || fallback] on strings: the empty string is falsy. *)
Definition or_else (s fallback : string) : string :=
  if String.eqb s "" then fallback else s.

(** A thrown value: an [Error] object with its message, or anything else. *)
Inductive Thrown := ErrorObject (message : string) | OtherValue.

(** [error instanceof Error ? error.message : 'Unknown error']. *)
Definition error_message (e : Thrown) : string :=
  match e with ErrorObject m => m | OtherValue => "Unknown error" end.

(** ** Responses of the coordinator *)

Inductive Body :=
| LockGranted (lock : DocumentLock) (action : string)
| LockConflict (error : string) (workerId : string) (lockType : LockType) (expiresAt : Z)
| Failure (error : string)
| Success
| LockStatus (locked : bool) (lock : option DocumentLock)
| StateUpdated (state : ProcessingState)
| StateRead (state : option ProcessingState)
| Deduplicated (result : DeduplicationResult)
| CleanedUp (cleanupResults : CleanupResults)
| Text (content : string).

Record Response := { http_status : Z; body : Body }.

Definition ok (b : Body) : Response := {| http_status := 200; body := b |}.

(** ** DocumentCoordinator (module [./coordination])

    The class extends [DurableObject], the base class of the platform
    ([cloudflare:workers]), whose constructor keeps its two arguments as
    [this.ctx] and [this.env].  The constructor of [DocumentCoordinator] only
    calls [super(state, env)], and the class declares and assigns no property
    [state]; yet every handler reaches the storage as [this.state.storage]. *)

(** A [DurableObjectState], of which the handlers use the storage. *)
Module DurableObjectState.
Record t := mk { storage : Storage }.
End DurableObjectState.
Abbreviation DurableObjectState := DurableObjectState.t.

(** The properties of an instance that matter here: [ctx], which the base
    class sets, and [state], which is [undefined] (here [None]) as long as
    nothing assigns it. *)
Module DocumentCoordinator.
Record t := mk { ctx : DurableObjectState; state : option DurableObjectState }.
End DocumentCoordinator.
Abbreviation DocumentCoordinator := DocumentCoordinator.t.

(** [new DocumentCoordinator(state, env)]: the argument goes to the base
    class, which keeps it as [ctx]. *)
Definition construct (state : DurableObjectState) : DocumentCoordinator :=
  DocumentCoordinator.mk state None.

(** What evaluating [this.state.storage] throws when [this.state] is
    [undefined]: a [TypeError], with the message the engine gives it. *)
Definition TypeError_undefined_storage : Thrown :=
  ErrorObject "Cannot read properties of undefined (reading 'storage')".

(** What a handler leaves and gives: the instance, and the response it
    resolves to or the value it rejects with. *)
Definition Handled : Type := DocumentCoordinator * (Thrown + Response).

(** A handler from its first [this.state.storage] on.  With [this.state]
    undefined that access throws; otherwise [body] reads and writes the
    storage of that state and builds the response. *)
Definition on_storage (this : DocumentCoordinator)
    (body : Storage → Storage * Response) : Handled :=
  match DocumentCoordinator.state this with
  | None => (this, inl TypeError_undefined_storage)
  | Some state =>
      let '(storage, response) := body (DurableObjectState.storage state) in
      (DocumentCoordinator.mk (DocumentCoordinator.ctx this)
         (Some (DurableObjectState.mk storage)),
       inr response)
  end.

(** [handleAcquireLock].  [now k] is the value of the [k]-th evaluation of
    [Date.now()] during the call and [randomUUID] the identifier drawn by
    [crypto.randomUUID()].  The guard [existingLock && existingLock.expiresAt >
    Date.now()] reads the clock only when a lock is stored, so the new lock is
    stamped with the readings that follow the ones the guard consumed. *)
Definition handleAcquireLock (now : nat → Z) (randomUUID : string)
    (documentId : string) (lockType : LockType) (ttlSeconds : option Z)
    (workerId : string) (this : DocumentCoordinator) : Handled :=
  let ttlSeconds := default 300 ttlSeconds in
  let key := lockKey documentId in
  on_storage this (λ storage,
    let acquire (reads : nat) :=
      let newLock := DocumentLock.mk documentId randomUUID lockType
                       (now reads) (now (S reads) + ttlSeconds * 1000) workerId in
      (<[key := SLock newLock]> storage, ok (LockGranted newLock "acquired")) in
    match get_lock storage key with
    | Some existingLock =>
        if DocumentLock.expiresAt existingLock >? now 0%nat then
          if String.eqb (DocumentLock.workerId existingLock) workerId then
            let updatedLock :=
              DocumentLock.mk
                (DocumentLock.documentId existingLock)
                (DocumentLock.lockId existingLock)
                (DocumentLock.lockType existingLock)
                (DocumentLock.acquiredAt existingLock)
                (now 1%nat + ttlSeconds * 1000)
                (DocumentLock.workerId existingLock) in
            (<[key := SLock updatedLock]> storage,
             ok (LockGranted updatedLock "extended"))
          else
            (storage,
             {| http_status := 409;
                body := LockConflict "Document is locked by another worker"
                          (DocumentLock.workerId existingLock)
                          (DocumentLock.lockType existingLock)
                          (DocumentLock.expiresAt existingLock) |})
        else acquire 1%nat
    | None => acquire 0%nat
    end).

Definition handleReleaseLock (documentId lockId workerId : string)
    (this : DocumentCoordinator) : Handled :=
  let key := lockKey documentId in
  on_storage this (λ storage,
    match get_lock storage key with
    | None => (storage, {| http_status := 404; body := Failure "Lock not found" |})
    | Some existingLock =>
        if negb (String.eqb (DocumentLock.lockId existingLock) lockId)
           || negb (String.eqb (DocumentLock.workerId existingLock) workerId)
        then (storage, {| http_status := 403;
                          body := Failure "Lock ID or worker ID mismatch" |})
        else (delete key storage, ok Success)
    end).

(** [handleCheckLock]; [documentId] is the query parameter, absent or empty
    when [!documentId] holds.  The parameter is checked before the storage is
    reached. *)
Definition handleCheckLock (now : Z) (documentId : option string)
    (this : DocumentCoordinator) : Handled :=
  match documentId with
  | None | Some EmptyString =>
      (this, inr {| http_status := 400; body := Failure "Missing documentId parameter" |})
  | Some documentId =>
      on_storage this (λ storage,
        match get_lock storage (lockKey documentId) with
        | Some existingLock =>
            if DocumentLock.expiresAt existingLock <=? now
            then (storage, ok (LockStatus false None))
            else (storage, ok (LockStatus true (Some existingLock)))
        | None => (storage, ok (LockStatus false None))
        end)
  end.

(** The object spread [{...existingState, ...stateUpdate, lastUpdatedAt: now}]:
    a field of the update wins over the stored one, a field absent from the
    update keeps the stored value ([∪] on options keeps its left operand when
    that one is present). *)
Definition spread (existingState : option ProcessingState)
    (stateUpdate : ProcessingState) (now : Z) : ProcessingState :=
  let old {A} (f : ProcessingState → option A) : option A := existingState ≫= f in
  ProcessingState.mk
    (ProcessingState.documentId stateUpdate)
    (ProcessingState.status stateUpdate ∪ old ProcessingState.status)
    (ProcessingState.progress stateUpdate ∪ old ProcessingState.progress)
    (ProcessingState.startedAt stateUpdate ∪ old ProcessingState.startedAt)
    (Some now)
    (ProcessingState.completedAt stateUpdate ∪ old ProcessingState.completedAt)
    (ProcessingState.error stateUpdate ∪ old ProcessingState.error)
    (ProcessingState.metadata stateUpdate ∪ old ProcessingState.metadata).

Definition handleUpdateState (now : Z) (stateUpdate : ProcessingState)
    (this : DocumentCoordinator) : Handled :=
  let key := stateKey (ProcessingState.documentId stateUpdate) in
  on_storage this (λ storage,
    let existingState := get_state storage key in
    let updatedState := spread existingState stateUpdate now in
    (<[key := SState updatedState]> storage, ok (StateUpdated updatedState))).

Definition handleGetState (documentId : option string)
    (this : DocumentCoordinator) : Handled :=
  match documentId with
  | None | Some EmptyString =>
      (this, inr {| http_status := 400; body := Failure "Missing documentId parameter" |})
  | Some documentId =>
      on_storage this (λ storage,
        (storage, ok (StateRead (get_state storage (stateKey documentId)))))
  end.

(** [existingDocId && existingDocId !== documentId]: the empty string is
    falsy in JavaScript. *)
Definition handleDeduplication (documentId contentHash : string)
    (this : DocumentCoordinator) : Handled :=
  let key := hashKey contentHash in
  on_storage this (λ storage,
    let store :=
      (<[key := SHash documentId]> storage,
       ok (Deduplicated (DeduplicationResult.mk false None contentHash create_new None))) in
    match get_hash storage key with
    | Some existingDocId =>
        if negb (String.eqb existingDocId "") && negb (String.eqb existingDocId documentId)
        then (storage,
              ok (Deduplicated
                    (DeduplicationResult.mk true (Some existingDocId) contentHash skip
                       (Some "Identical content hash found"))))
        else store
    | None => store
    end).

Definition retention : Z := 7 * 24 * 60 * 60 * 1000.

(** One iteration of the cleanup loop over [allKeys.entries()]. *)
Definition cleanup_entry (now : Z) (acc : Storage * CleanupResults)
    (entry : string * Stored) : Storage * CleanupResults :=
  let '(storage, r) := acc in
  let '(key, value) := entry in
  if startsWith key "lock:" then
    match value with
    | SLock lock =>
        if DocumentLock.expiresAt lock <=? now
        then (delete key storage,
              {| expiredLocks := S (expiredLocks r); oldStates := oldStates r;
                 oldHashes := oldHashes r |})
        else acc
    | _ => acc
    end
  else if startsWith key "state:" then
    match value with
    | SState state =>
        match ProcessingState.lastUpdatedAt state with
        | Some t =>
            if t <? now - retention
            then (delete key storage,
                  {| expiredLocks := expiredLocks r; oldStates := S (oldStates r);
                     oldHashes := oldHashes r |})
            else acc
        | None => acc
        end
    | _ => acc
    end
  else if startsWith key "hash:" then
    (storage, {| expiredLocks := expiredLocks r; oldStates := oldStates r;
                 oldHashes := S (oldHashes r) |})
  else acc.

Definition cleanup_loop (now : Z) (allKeys : list (string * Stored))
    (storage : Storage) : Storage * CleanupResults :=
  foldl (cleanup_entry now)
        (storage, {| expiredLocks := 0; oldStates := 0; oldHashes := 0 |})
        allKeys.

(** [handleCleanup]: the clock is read first, then the storage is listed. *)
Definition handleCleanup (now : Z) (this : DocumentCoordinator) : Handled :=
  on_storage this (λ storage,
    let allKeys := map_to_list storage in
    let '(storage', cleanupResults) := cleanup_loop now allKeys storage in
    (storage', ok (CleanedUp cleanupResults))).

(** The requests [DocumentCoordinator.fetch] tells apart by the last segment
    of the path, each with the clock readings and random draws of its
    handler. *)
Inductive Request :=
| AcquireLock (now : nat → Z) (randomUUID documentId : string)
    (lockType : LockType) (ttlSeconds : option Z) (workerId : string)
| ReleaseLock (documentId lockId workerId : string)
| CheckLock (now : Z) (documentId : option string)
| UpdateState (now : Z) (stateUpdate : ProcessingState)
| GetState (documentId : option string)
| Deduplicate (documentId contentHash : string)
| Cleanup (now : Z)
| OtherAction (action : string).

(** [fetch].  Each case returns the promise of its handler without awaiting
    it, so a rejection of the handler is the rejection of [fetch]: the [catch]
    block, which would answer 500, only sees what is thrown before a handler
    is called. *)
Definition fetch (request : Request) (this : DocumentCoordinator) : Handled :=
  match request with
  | AcquireLock now uuid d lt ttl w => handleAcquireLock now uuid d lt ttl w this
  | ReleaseLock d l w => handleReleaseLock d l w this
  | CheckLock now d => handleCheckLock now d this
  | UpdateState now u => handleUpdateState now u this
  | GetState d => handleGetState d this
  | Deduplicate d h => handleDeduplication d h this
  | Cleanup now => handleCleanup now this
  | OtherAction _ => (this, inr {| http_status := 404; body := Text "Not Found" |})
  end.


(** ** The request routing of the processors (module [./context])

    [getCoordinator(documentId)] resolves the coordinator with
    [idFromName(documentId)]: every document id names its own Durable Object,
    each with a storage of its own, which the platform keeps between the
    calls and hands to the constructor.  The fleet is the map from object
    name to that storage; an object that was never written to has an empty
    one. *)

Abbreviation Coordinators := (gmap string Storage).

(** The storage the platform keeps for the object called [name]. *)
Definition storage_of (name : string) (fleet : Coordinators) : Storage :=
  default ∅ (fleet !! name).

Definition getCoordinator (documentId : string) (fleet : Coordinators)
    : DocumentCoordinator :=
  construct (DurableObjectState.mk (storage_of documentId fleet)).

(** What the processors run on the fleet: a computation changes the storages
    of the coordinators and returns a value or throws. *)
Definition Run (A : Type) : Type := Coordinators → Coordinators * (Thrown + A).

#[global] Instance Run_ret : MRet Run := λ A a fleet, (fleet, inr a).

#[global] Instance Run_bind : MBind Run := λ A B k m fleet,
  match m fleet with
  | (fleet, inl thrown) => (fleet, inl thrown)
  | (fleet, inr a) => k a fleet
  end.

Definition throw {A} (thrown : Thrown) : Run A := λ fleet, (fleet, inl thrown).

(** [try { m } catch (error) { handler }]. *)
Definition try_catch {A} (m : Run A) (handler : Thrown → Run A) : Run A := λ fleet,
  match m fleet with
  | (fleet, inl thrown) => handler thrown fleet
  | (fleet, inr a) => (fleet, inr a)
  end.

(** [await coordinator.fetch(...)] on the stub returned by [getCoordinator]:
    the call resolves to the response of the object or rejects with what its
    [fetch] rejects with. *)
Definition coordinator_fetch (documentId : string) (request : Request) : Run Response :=
  λ fleet,
    let '(this, result) := fetch request (getCoordinator documentId fleet) in
    (<[documentId := DurableObjectState.storage (DocumentCoordinator.ctx this)]> fleet,
     result).

(** [DocumentProcessor.acquireProcessingLock]: the parsed body of the
    response. *)
Definition acquireProcessingLock (now : nat → Z) (randomUUID workerId : string)
    (documentId : string) : Run Body :=
  response ← coordinator_fetch documentId
                (AcquireLock now randomUUID documentId lt_processing (Some 1800) workerId);
  mret (body response).

(** [DocumentProcessor.releaseLock]. *)
Definition releaseLock (workerId : string) (lock : DocumentLock) : Run unit :=
  _ ← coordinator_fetch (DocumentLock.documentId lock)
        (ReleaseLock (DocumentLock.documentId lock) (DocumentLock.lockId lock) workerId);
  mret tt.

(** [DocumentProcessor.checkDeduplication]. *)
Definition checkDeduplication (documentId contentHash : string) : Run Body :=
  response ← coordinator_fetch documentId (Deduplicate documentId contentHash);
  mret (body response).

(** [DocumentProcessor.updateProcessingState]. *)
Definition updateProcessingState (now : Z) (documentId : string)
    (state : ProcessingState) : Run unit :=
  _ ← coordinator_fetch documentId (UpdateState now state);
  mret tt.

(** ** Processing results and message envelopes (module [./types]) *)

Module ProcessingError.
Record t := mk {
  code : string;
  message : string;
  retryable : bool
}.
End ProcessingError.
Abbreviation ProcessingError := ProcessingError.t.

Module ProcessingResult.
Record t := mk {
  success : bool;
  messageId : string;
  processingTime : Z;
  chunksProcessed : option Z;
  embeddingsGenerated : option Z;
  error : option ProcessingError
}.
End ProcessingResult.
Abbreviation ProcessingResult := ProcessingResult.t.

Module BatchError.
Record t := mk {
  messageId : string;
  error : string;
  retryable : bool
}.
End BatchError.
Abbreviation BatchError := BatchError.t.

Record BatchProcessingResult := {
  totalMessages : nat;
  successCount : nat;
  failureCount : nat;
  results : list ProcessingResult;
  totalProcessingTime : Z;
  errors : list BatchError
}.

Record Metadata := {
  priority : string;
  retryCount : Z;
  maxRetries : Z;
  correlationId : string;
  source : string
}.

Module QueueMessage.
Record t {Payload : Type} := mk {
  type : string;
  payload : Payload;
  metadata : Metadata
}.
Arguments t : clear implicits.
End QueueMessage.
Abbreviation QueueMessage := QueueMessage.t.

(** A message of the queue transport ([Message<Body>] of the platform). *)
Module Message.
Record t {Body : Type} := mk {
  id : string;
  attempts : Z;
  body : Body
}.
Arguments t : clear implicits.
End Message.
Abbreviation Message := Message.t.

(** ** The batch dispatcher of the document-ingestion queue (index.ts) *)

Inductive Disposition := ack | retry.

#[global] Instance Disposition_eq_dec : EqDecision Disposition.
Proof. solve_decision. Defined.

(** What awaiting the processor yields: a result, or a rejection. *)
Inductive Outcome :=
| Returns (result : ProcessingResult)
| Throws (thrown : Thrown).

Section Dispatcher.

(** The body of a document-ingestion message. *)
Context {DocumentIngestionPayload : Type}.

(** [processor.processDocumentIngestion], seen from the dispatcher. *)
Variable processDocumentIngestion : QueueMessage DocumentIngestionPayload → Outcome.

(** The dispatcher's view of a batch in progress: the running
    [BatchProcessingResult] and the calls of [message.ack()] and
    [message.retry()] made so far, oldest first. *)
Definition Dispatch : Type :=
  BatchProcessingResult * list (Message DocumentIngestionPayload * Disposition).

Definition count_success (r : BatchProcessingResult) (result : ProcessingResult)
    : BatchProcessingResult :=
  {| totalMessages := totalMessages r;
     successCount := S (successCount r);
     failureCount := failureCount r;
     results := results r ++ [result];
     totalProcessingTime := totalProcessingTime r;
     errors := errors r |}.

Definition count_failure (r : BatchProcessingResult)
    (pushed : list ProcessingResult) (e : BatchError) : BatchProcessingResult :=
  {| totalMessages := totalMessages r;
     successCount := successCount r;
     failureCount := S (failureCount r);
     results := results r ++ pushed;
     totalProcessingTime := totalProcessingTime r;
     errors := errors r ++ [e] |}.

(** The envelope built from a transport message. *)
Definition envelope (message : Message DocumentIngestionPayload)
    : QueueMessage DocumentIngestionPayload :=
  {| QueueMessage.type := "document_ingestion";
     QueueMessage.payload := Message.body message;
     QueueMessage.metadata :=
       {| priority := "medium";
          retryCount := Message.attempts message;
          maxRetries := 3;
          correlationId := Message.id message;
          source := "queue-processor" |} |}.

(** The callback mapped over a chunk: [try { ... } catch (error) { ... }]. *)
Definition process_message (acc : Dispatch)
    (message : Message DocumentIngestionPayload) : Dispatch :=
  let '(r, calls) := acc in
  let queueMessage := envelope message in
  match processDocumentIngestion queueMessage with
  | Returns result =>
      if ProcessingResult.success result then
        (count_success r result, calls ++ [(message, ack)])
      else
        let error := ProcessingResult.error result in
        let e :=
          {| BatchError.messageId := ProcessingResult.messageId result;
             BatchError.error :=
               or_else (from_option ProcessingError.message "" error) "Unknown error";
             BatchError.retryable :=
               from_option ProcessingError.retryable false error |} in
        if from_option ProcessingError.retryable false error
        then (count_failure r [result] e, calls ++ [(message, retry)])
        else (count_failure r [result] e, calls ++ [(message, ack)])
  | Throws thrown =>
      let e :=
        {| BatchError.messageId := or_else (Message.id message) "unknown";
           BatchError.error := error_message thrown;
           BatchError.retryable := true |} in
      (count_failure r [] e, calls ++ [(message, retry)])
  end.

(** [for (let i = 0; i < messages.length; i += concurrency)
       chunks.push(messages.slice(i, i + concurrency))].
    The loop runs at most [messages.length] times, which bounds [fuel]. *)
Fixpoint chunk_loop (fuel : nat) (messages : list (Message DocumentIngestionPayload))
    (concurrency i : Z) : list (list (Message DocumentIngestionPayload)) :=
  match fuel with
  | O => []
  | S fuel' =>
      if i <? Z.of_nat (length messages)
      then slice messages i (i + concurrency)
             :: chunk_loop fuel' messages concurrency (i + concurrency)
      else []
  end.

(** [handleDocumentIngestion]: the chunks are handled one after the other;
    inside a chunk the callbacks of [Promise.all] only meet in the shared
    counters and lists, to which each adds its own entries. *)
Definition handleDocumentIngestion (startTime endTime : Z)
    (messages : list (Message DocumentIngestionPayload)) : Dispatch :=
  let results0 :=
    {| totalMessages := length messages;
       successCount := 0;
       failureCount := 0;
       results := [];
       totalProcessingTime := 0;
       errors := [] |} in
  let concurrency := Z.min (Z.of_nat (length messages)) 5 in
  let chunks := chunk_loop (length messages) messages concurrency 0 in
  let '(r, calls) :=
    foldl (λ acc chunk, foldl process_message acc chunk) (results0, []) chunks in
  ({| totalMessages := totalMessages r;
      successCount := successCount r;
      failureCount := failureCount r;
      results := results r;
      totalProcessingTime := endTime - startTime;
      errors := errors r |}, calls).

End Dispatcher.

(** The disposition the dispatcher has to give, in the words of the
    specification: ack on success, retry on a retryable failure, ack on a
    non-retryable failure, retry on an unhandled exception. *)
Definition spec_disposition (o : Outcome) : Disposition :=
  match o with
  | Returns result =>
      if ProcessingResult.success result then ack
      else match ProcessingResult.error result with
           | Some e => if ProcessingError.retryable e then retry else ack
           | None => ack
           end
  | Throws _ => retry
  end.

(** ** The other dispatchers of index.ts *)

Section OtherDispatchers.

(** The body of a message; [queueHandler] receives a [MessageBatch<any>]. *)
Context {Body : Type}.

(** The envelope built by [handleWebhookProcessing]. *)
Definition webhook_envelope (message : Message Body) : QueueMessage Body :=
  {| QueueMessage.type := "webhook_sync";
     QueueMessage.payload := Message.body message;
     QueueMessage.metadata :=
       {| priority := "medium";
          retryCount := Message.attempts message;
          maxRetries := 5;
          correlationId := Message.id message;
          source := "queue-processor" |} |}.

(** The envelope built by [handleBatchReprocessing]. *)
Definition reprocess_envelope (message : Message Body) : QueueMessage Body :=
  {| QueueMessage.type := "batch_reprocess";
     QueueMessage.payload := Message.body message;
     QueueMessage.metadata :=
       {| priority := "medium";
          retryCount := Message.attempts message;
          maxRetries := 2;
          correlationId := Message.id message;
          source := "queue-processor" |} |}.

(** The three processors, seen from the dispatchers. *)
Variable processDocumentIngestion : QueueMessage Body → Outcome.
Variable processWebhookSync : QueueMessage Body → Outcome.
Variable processBatchReprocess : QueueMessage Body → Outcome.

(** The running [successCount] and [failureCount] of
    [handleWebhookProcessing] with the calls of [ack()] and [retry()] made so
    far. *)
Record WebhookDispatch := {
  wh_successCount : nat;
  wh_failureCount : nat;
  wh_calls : list (Message Body * Disposition)
}.

(** The callback mapped over a chunk of webhook messages. *)
Definition process_webhook_message (acc : WebhookDispatch) (message : Message Body)
    : WebhookDispatch :=
  match processWebhookSync (webhook_envelope message) with
  | Returns result =>
      if ProcessingResult.success result then
        {| wh_successCount := S (wh_successCount acc);
           wh_failureCount := wh_failureCount acc;
           wh_calls := wh_calls acc ++ [(message, ack)] |}
      else if from_option ProcessingError.retryable false (ProcessingResult.error result)
      then {| wh_successCount := wh_successCount acc;
              wh_failureCount := S (wh_failureCount acc);
              wh_calls := wh_calls acc ++ [(message, retry)] |}
      else {| wh_successCount := wh_successCount acc;
              wh_failureCount := S (wh_failureCount acc);
              wh_calls := wh_calls acc ++ [(message, ack)] |}
  | Throws _ =>
      {| wh_successCount := wh_successCount acc;
         wh_failureCount := S (wh_failureCount acc);
         wh_calls := wh_calls acc ++ [(message, retry)] |}
  end.

(** [handleWebhookProcessing]: chunks of [Math.min(messages.length, 10)]
    messages, one chunk after the other.  The callbacks of a chunk run under
    [Promise.all]: [wh_calls] lists their calls in the order of the messages,
    which is one of the orders in which they can happen. *)
Definition handleWebhookProcessing (messages : list (Message Body)) : WebhookDispatch :=
  let concurrency := Z.min (Z.of_nat (length messages)) 10 in
  let chunks := chunk_loop (length messages) messages concurrency 0 in
  foldl (λ acc chunk, foldl process_webhook_message acc chunk)
    {| wh_successCount := 0; wh_failureCount := 0; wh_calls := [] |} chunks.

(** The body of the loop [for (const message of batch.messages)] of
    [handleBatchReprocessing]. *)
Definition reprocess_message (calls : list (Message Body * Disposition))
    (message : Message Body) : list (Message Body * Disposition) :=
  match processBatchReprocess (reprocess_envelope message) with
  | Returns result =>
      if ProcessingResult.success result then calls ++ [(message, ack)]
      else if from_option ProcessingError.retryable false (ProcessingResult.error result)
      then calls ++ [(message, retry)]
      else calls ++ [(message, ack)]
  | Throws _ => calls ++ [(message, retry)]
  end.

(** [handleBatchReprocessing]: the messages one after the other. *)
Definition handleBatchReprocessing (messages : list (Message Body))
    : list (Message Body * Disposition) :=
  foldl reprocess_message [] messages.

(** [queueHandler]: the [switch] on [batch.queue].  The result is the list of
    the calls of [ack()] and [retry()], [batch.ackAll()] being an [ack()] of
    every message, and the error thrown, if any. *)
Definition queueHandler (queue : string) (startTime endTime : Z)
    (messages : list (Message Body))
    : list (Message Body * Disposition) * option Thrown :=
  if String.eqb queue "document-ingestion" then
    ((handleDocumentIngestion processDocumentIngestion startTime endTime messages).2,
     None)
  else if String.eqb queue "webhook-processing" then
    (wh_calls (handleWebhookProcessing messages), None)
  else if String.eqb queue "batch-reprocessing" then
    (handleBatchReprocessing messages, None)
  else
    (map (λ message, (message, ack)) messages,
     Some (ErrorObject ("Unsupported queue: " +:+ queue))).

End OtherDispatchers.

(** ** BatchProcessor (processors/batch-processor.ts) *)

(** The two bindings the reprocessing handlers call.  A call either returns
    or throws. *)
Record Env := {
  (** [env.AI.run(model, {text: [content]})], then [response.data[0]]. *)
  AI_run : string → Thrown + list Z;
  (** [env.VECTORIZE_INDEX.upsert([{id, values}])]. *)
  VECTORIZE_INDEX_upsert : string → list Z → Thrown + unit
}.

Module DocumentResult.
Record t := mk {
  documentId : string;
  success : bool;
  error : option string
}.
End DocumentResult.
Abbreviation DocumentResult := DocumentResult.t.

Module DocumentError.
Record t := mk {
  documentId : string;
  error : option string
}.
End DocumentError.
Abbreviation DocumentError := DocumentError.t.

Module BatchResults.
Record t := mk {
  successCount : nat;
  failureCount : nat;
  errors : list DocumentError
}.
End BatchResults.
Abbreviation BatchResults := BatchResults.t.

Module BatchReprocessPayload.
Record t := mk {
  documentIds : list string;
  reason : string
}.
End BatchReprocessPayload.
Abbreviation BatchReprocessPayload := BatchReprocessPayload.t.

Record StoredChunk := { chunk_id : string; chunk_content : string }.

(** Sequencing of calls that may throw. *)
Definition and_then {A B} (x : Thrown + A) (k : A → Thrown + B) : Thrown + B :=
  match x with inl e => inl e | inr a => k a end.

Section BatchProcessor.

Variable env : Env.

(** The placeholder [retrieveDocumentChunks]. *)
Definition retrieveDocumentChunks (documentId : string) : list StoredChunk :=
  [ {| chunk_id := documentId +:+ "#0";
       chunk_content := "Chunk 0 for " +:+ documentId |};
    {| chunk_id := documentId +:+ "#1";
       chunk_content := "Chunk 1 for " +:+ documentId |} ].

(** The loop [for (const chunk of chunks)] of [handleModelUpdate]. *)
Fixpoint reembed (chunks : list StoredChunk) : Thrown + unit :=
  match chunks with
  | [] => inr tt
  | chunk :: rest =>
      and_then (AI_run env (chunk_content chunk)) (λ newEmbedding,
      and_then (VECTORIZE_INDEX_upsert env (chunk_id chunk) newEmbedding) (λ _,
      reembed rest))
  end.

Definition succeeded (documentId : string) : Thrown + DocumentResult :=
  inr (DocumentResult.mk documentId true None).

(** [retrieveOriginalDocument], [applySchemaTransformation] and
    [queueDocumentForReprocessing] are placeholders that return. *)
Definition handleSchemaChange (documentId : string) : Thrown + DocumentResult :=
  succeeded documentId.

Definition handleModelUpdate (documentId : string) : Thrown + DocumentResult :=
  let chunks := retrieveDocumentChunks documentId in
  if (length chunks =? 0)%nat
  then inl (ErrorObject ("No chunks found for document: " +:+ documentId))
  else and_then (reembed chunks) (λ _, succeeded documentId).

(** [retrieveDocumentMetadata], [applyPolicyChanges] and
    [updateDocumentMetadata] are placeholders that return. *)
Definition handlePolicyChange (documentId : string) : Thrown + DocumentResult :=
  succeeded documentId.

Definition handleManualReindex (documentId : string) : Thrown + DocumentResult :=
  succeeded documentId.

(** [processDocument]: the [switch] on the reason inside [try]/[catch]. *)
Definition processDocument (documentId reason : string) : DocumentResult :=
  let attempt :=
    if String.eqb reason "schema_change" then handleSchemaChange documentId
    else if String.eqb reason "model_update" then handleModelUpdate documentId
    else if String.eqb reason "policy_change" then handlePolicyChange documentId
    else if String.eqb reason "manual_reindex" then handleManualReindex documentId
    else inl (ErrorObject ("Unknown reprocessing reason: " +:+ reason)) in
  match attempt with
  | inr result => result
  | inl error => DocumentResult.mk documentId false (Some (error_message error))
  end.

(** [for (const result of batchResults)]: the aggregation of one result. *)
Definition aggregate (results : BatchResults) (result : DocumentResult) : BatchResults :=
  if DocumentResult.success result then
    BatchResults.mk (S (BatchResults.successCount results))
      (BatchResults.failureCount results) (BatchResults.errors results)
  else
    BatchResults.mk (BatchResults.successCount results)
      (S (BatchResults.failureCount results))
      (BatchResults.errors results
         ++ [DocumentError.mk (DocumentResult.documentId result)
               (DocumentResult.error result)]).

Definition batchSize : Z := 5.

(** [for (let i = 0; i < documentIds.length; i += batchSize)].  The
    [.catch] on [processDocument] never fires, since [processDocument] catches
    what its handlers throw; the pause between sub-batches changes no value.
    The loop runs at most [documentIds.length] times, which bounds [fuel]. *)
Fixpoint processBatch_loop (fuel : nat) (documentIds : list string) (reason : string)
    (i : Z) (results : BatchResults) : BatchResults :=
  match fuel with
  | O => results
  | S fuel' =>
      if i <? Z.of_nat (length documentIds) then
        let batch := slice documentIds i (i + batchSize) in
        let batchResults := map (λ documentId, processDocument documentId reason) batch in
        let results := foldl aggregate results batchResults in
        processBatch_loop fuel' documentIds reason (i + batchSize) results
      else results
  end.

Definition processBatch (payload : BatchReprocessPayload) : BatchResults :=
  let documentIds := BatchReprocessPayload.documentIds payload in
  processBatch_loop (length documentIds) documentIds
    (BatchReprocessPayload.reason payload) 0 (BatchResults.mk 0 0 []).

End BatchProcessor.

(** ** Error classification and the result of a reprocessing message *)

(** [String.prototype.includes]. *)
Fixpoint includes (s searchString : string) : bool :=
  startsWith s searchString
  || match s with
     | EmptyString => false
     | String _ rest => includes rest searchString
     end.

(** [isRetryableError] of [DocumentProcessor] and of [BatchProcessor]. *)
Definition isRetryableError (error : Thrown) : bool :=
  match error with
  | ErrorObject message =>
      includes message "timeout"
      || includes message "rate limit"
      || includes message "network"
      || includes message "503"
      || includes message "502"
  | OtherValue => false
  end.

(** [isRetryableError] of [WebhookProcessor], which also takes [429]. *)
Definition isRetryableWebhookError (error : Thrown) : bool :=
  match error with
  | ErrorObject message =>
      includes message "timeout"
      || includes message "rate limit"
      || includes message "network"
      || includes message "503"
      || includes message "502"
      || includes message "429"
  | OtherValue => false
  end.

(** The result of [processBatchReprocess] with the [metadata] it carries. *)
Record ReprocessResult := {
  rr_result : ProcessingResult;
  rr_batchResults : BatchResults;
  rr_reason : string
}.

(** [BatchProcessor.processBatchReprocess].  Nothing in the [try] block
    throws: [processBatch] returns whatever its documents do, so the [catch]
    block, which would build a [BATCH_PROCESSING_FAILED] result, is not
    entered.  [startTime] and [endTime] are the two readings of [Date.now()]. *)
Definition processBatchReprocess (env : Env) (startTime endTime : Z)
    (message : QueueMessage BatchReprocessPayload) : ReprocessResult :=
  let payload := QueueMessage.payload message in
  let messageId := correlationId (QueueMessage.metadata message) in
  let results := processBatch env payload in
  {| rr_result :=
       ProcessingResult.mk
         (BatchResults.failureCount results =? 0)%nat
         messageId (endTime - startTime) None None None;
     rr_batchResults := results;
     rr_reason := BatchReprocessPayload.reason payload |}.

(** ** DocumentProcessor.chunkText (processors/document-processor.ts)

    A string is a sequence of code units below 256.  Here [chunkSize] and
    [overlap] are integers, as counts of words are; [chunkText_number] below
    takes any number. *)

(** The class [\s] on those code units: tab, line feed, vertical tab, form
    feed, carriage return, space and no-break space. *)
Definition is_whitespace (c : ascii) : bool :=
  match c with
  | "009" | "010" | "011" | "012" | "013" | " " | "160" => true
  | _ => false
  end%char.

(** [text.split(/\s+/)]: the pieces between the maximal runs of whitespace.
    [in_separator] tells that the code unit before [s] was whitespace; the
    head of the result is the piece being read. *)
Fixpoint split_go (in_separator : bool) (s : string) : list string :=
  match s with
  | EmptyString => [EmptyString]
  | String c rest =>
      if is_whitespace c then
        if in_separator then split_go true rest
        else EmptyString :: split_go true rest
      else
        match split_go false rest with
        | piece :: pieces => String c piece :: pieces
        | [] => [String c EmptyString]
        end
  end.

Definition split_whitespace (text : string) : list string := split_go false text.

(** [words.join(' ')]. *)
Definition join (words : list string) : string := String.concat " " words.

(** The loop of [chunkText].  Nothing in the code bounds the number of
    iterations, so the model counts them down from [fuel] and yields [None]
    when they run out. *)
Fixpoint chunkText_loop (fuel : nat) (words : list string) (chunkSize overlap : Z)
    (i : Z) (chunks : list string) : option (list string) :=
  match fuel with
  | O => None
  | S fuel' =>
      if i <? Z.of_nat (length words) then
        let chunk := join (slice words i (i + chunkSize)) in
        let chunks := chunks ++ [chunk] in
        if i + chunkSize >=? Z.of_nat (length words) then Some chunks
        else chunkText_loop fuel' words chunkSize overlap
               (i + (chunkSize - overlap)) chunks
      else Some chunks
  end.

(** [chunkText(text, chunkSize = 1000, overlap = 200)] on integer
    parameters. *)
Definition chunkText (fuel : nat) (text : string) (chunkSize overlap : option Z)
    : option (list string) :=
  let chunkSize := default 1000 chunkSize in
  let overlap := default 200 overlap in
  let words := split_whitespace text in
  chunkText_loop fuel words chunkSize overlap 0 [].

(** The number of words of a chunk, counted the way [chunkText] finds the
    words of a text. *)
Definition word_count (chunk : string) : nat := length (split_whitespace chunk).

(** ** Text cleaning (processors/document-processor.ts and
    apps/ingest-service/src/utils/chunking.ts) *)

(** [s.replace(/\s+/g, ' ')]: every maximal run of whitespace becomes one
    space.  [in_run] tells that the code unit before [s] was whitespace. *)
Fixpoint replace_whitespace_runs (in_run : bool) (s : string) : string :=
  match s with
  | EmptyString => EmptyString
  | String c rest =>
      if is_whitespace c then
        if in_run then replace_whitespace_runs true rest
        else String " " (replace_whitespace_runs true rest)
      else String c (replace_whitespace_runs false rest)
  end.

Definition is_newline (c : ascii) : bool := Ascii.eqb c "010".

(** [s.replace(/\n+/g, '\n')]: every maximal run of line feeds becomes one
    line feed. *)
Fixpoint replace_newline_runs (in_run : bool) (s : string) : string :=
  match s with
  | EmptyString => EmptyString
  | String c rest =>
      if is_newline c then
        if in_run then replace_newline_runs true rest
        else String "010" (replace_newline_runs true rest)
      else String c (replace_newline_runs false rest)
  end.

(** [String.prototype.trim], which strips the code units of [\s] from both
    ends. *)
Fixpoint trimStart (s : string) : string :=
  match s with
  | EmptyString => EmptyString
  | String c rest => if is_whitespace c then trimStart rest else s
  end.

Fixpoint trimEnd (s : string) : string :=
  match s with
  | EmptyString => EmptyString
  | String c rest =>
      match trimEnd rest with
      | EmptyString => if is_whitespace c then EmptyString else String c EmptyString
      | kept => String c kept
      end
  end.

Definition trim (s : string) : string := trimEnd (trimStart s).

(** [DocumentProcessor.cleanText]:
    [text.replace(/\s+/g, ' ').replace(/\n+/g, '\n').trim()]. *)
Definition cleanText (text : string) : string :=
  trim (replace_newline_runs false (replace_whitespace_runs false text)).

(** [cleanText] of the ingest service: [text.replace(/\s+/g, ' ').trim()]. *)
Definition ingest_cleanText (text : string) : string :=
  trim (replace_whitespace_runs false text).

(** The [k]-th window of [chunkSize] words over the words of a text, the
    windows starting [step] words apart. *)
Definition window (words : list string) (chunkSize step : Z) (k : nat) : string :=
  join (slice words (Z.of_nat k * step) (Z.of_nat k * step + chunkSize)).

(** ** DocumentProcessor.processDocumentIngestion
    (processors/document-processor.ts) *)

(** The fields of the document that a run reads; its [source], [url] and
    access list only travel into the chunk metadata handed to the stores. *)
Module Document.
Record t := mk { id : string; text : string }.
End Document.
Abbreviation Document := Document.t.

Module IngestionOptions.
Record t := mk {
  chunkSize : option Z;
  overlap : option Z;
  dlpEnabled : bool;
  forceReprocess : bool
}.
End IngestionOptions.
Abbreviation IngestionOptions := IngestionOptions.t.

Module DocumentIngestionPayload.
Record t := mk { document : Document; options : option IngestionOptions }.
End DocumentIngestionPayload.
Abbreviation DocumentIngestionPayload := DocumentIngestionPayload.t.

(** [options = {}]. *)
Definition no_options : IngestionOptions := IngestionOptions.mk None None false false.

(** The points of a run at which [Date.now()] is read, by the processor and by
    the coordinator it calls there. *)
Inductive Site :=
| at_start | at_acquire | at_lock_failed | at_skipped
| at_preprocessing | at_chunking | at_embedding
| at_chunk (i : nat)
| at_completed | at_done | at_failed.

(** A [ProcessingResult] with the [metadata] of the skipped-duplicate branch:
    the action and the [existingDocumentId]. *)
Record IngestionResult := {
  ir_result : ProcessingResult;
  ir_action : option (string * option string)
}.

Section DocumentProcessor.

(** [ctx.workerId]. *)
Variable workerId : string.
(** The identifier [crypto.randomUUID()] draws in the coordinator. *)
Variable randomUUID : string.
(** [generateContentHash]: the SHA-256 digest of the text in hexadecimal. *)
Variable generateContentHash : string → string.
(** [now site k]: the [k]-th reading of [Date.now()] at [site], the readings
    of the processor first, then those of the coordinator it calls there. *)
Variable now : Site → nat → Z.
(** The calls on one chunk that can throw ([generateEmbedding],
    [storeChunkInR2], [upsertVector]), by index and text of the chunk: what
    they throw, if they do.  [performDLPScanning] returns the chunk unchanged. *)
Variable store_chunk : nat → string → option Thrown.
(** [Math.round(50 + ((i + 1) / chunks.length) * 40)], by [i] and
    [chunks.length]. *)
Variable progressPercentage : nat → nat → Z.
(** The iterations granted to the loop of [chunkText], and what is thrown when
    they do not suffice: a loop that does not end pushes chunks until the list
    can grow no more. *)
Variable fuel : nat.
Variable chunks_overflow : Thrown.

(** The state objects the run sends to [updateProcessingState]. *)
Definition progress_update (documentId : string) (status : Status) (step : string)
    (completed percent startTime lastUpdated : Z) (completedAt : option Z)
    (error : option string) : ProcessingState :=
  ProcessingState.mk documentId (Some status)
    (Some {| currentStep := step; stepsCompleted := completed; totalSteps := 4;
             percentage := percent |})
    (Some startTime) (Some lastUpdated) completedAt error None.

(** Step 6, the loop over the chunks from index [i] on. *)
Fixpoint embed_chunks (documentId : string) (startTime : Z) (total i : nat)
    (chunks : list string) : Run unit :=
  match chunks with
  | [] => mret tt
  | chunk :: rest =>
      match store_chunk i chunk with
      | Some thrown => throw thrown
      | None =>
          _ ← updateProcessingState (now (at_chunk i) 2%nat) documentId
                (progress_update documentId processing "embedding" 2
                   (progressPercentage i total) startTime (now (at_chunk i) 1%nat)
                   None None);
          embed_chunks documentId startTime total (S i) rest
      end
  end.

Definition failed_result (messageId : string) (processingTime : Z)
    (code message : string) (retryable : bool) : IngestionResult :=
  {| ir_result :=
       ProcessingResult.mk false messageId processingTime None None
         (Some (ProcessingError.mk code message retryable));
     ir_action := None |}.

(** [lockResult.error] of a response without [success: true]. *)
Definition refusal (response : Body) : string :=
  match response with
  | LockConflict error _ _ _ | Failure error => error
  | _ => EmptyString
  end.

(** The inner [try] block of [processDocumentIngestion], steps 2 to 7, run
    with the lock the coordinator granted. *)
Definition process_content (message : QueueMessage DocumentIngestionPayload)
    (lock : DocumentLock) : Run IngestionResult :=
  let startTime := now at_start 0%nat in
  let document := DocumentIngestionPayload.document (QueueMessage.payload message) in
  let options :=
    default no_options (DocumentIngestionPayload.options (QueueMessage.payload message)) in
  let id := Document.id document in
  let messageId := correlationId (QueueMessage.metadata message) in
  let update status step completed percent lastUpdated completedAt error received :=
    updateProcessingState received id
      (progress_update id status step completed percent startTime lastUpdated
         completedAt error) in
  deduplicationResult ← checkDeduplication id (generateContentHash (Document.text document));
  let duplicate :=
    match deduplicationResult with
    | Deduplicated result =>
        if DeduplicationResult.isDuplicate result
        then Some (DeduplicationResult.existingDocumentId result) else None
    | _ => None
    end in
  match duplicate, IngestionOptions.forceReprocess options with
  | Some existingDocumentId, false =>
      _ ← releaseLock workerId lock;
      mret {| ir_result :=
                ProcessingResult.mk true messageId (now at_skipped 0%nat - startTime)
                  None None None;
              ir_action := Some ("skipped_duplicate", existingDocumentId) |}
  | _, _ =>
      _ ← update processing "preprocessing" 0 0 (now at_preprocessing 0%nat) None None
            (now at_preprocessing 1%nat);
      let cleanedText := cleanText (Document.text document) in
      _ ← update processing "chunking" 1 25 (now at_chunking 0%nat) None None
            (now at_chunking 1%nat);
      match chunkText fuel cleanedText (IngestionOptions.chunkSize options)
              (IngestionOptions.overlap options) with
      | None => throw chunks_overflow
      | Some chunks =>
          _ ← update processing "embedding" 2 50 (now at_embedding 0%nat) None None
                (now at_embedding 1%nat);
          _ ← embed_chunks id startTime (length chunks) 0 chunks;
          _ ← update completed "completed" 4 100 (now at_completed 0%nat)
                (Some (now at_completed 1%nat)) None (now at_completed 2%nat);
          _ ← releaseLock workerId lock;
          mret {| ir_result :=
                    ProcessingResult.mk true messageId (now at_done 0%nat - startTime)
                      (Some (Z.of_nat (length chunks)))
                      (Some (Z.of_nat (length chunks))) None;
                  ir_action := None |}
      end
  end.

(** [processDocumentIngestion]: the result it resolves to or the value it
    rejects with, and the fleet it leaves.  The inner [catch] releases the lock
    and throws again; the outer [catch] records the failure and returns it,
    unless recording it throws in turn. *)
Definition processDocumentIngestion (message : QueueMessage DocumentIngestionPayload)
    : Run IngestionResult :=
  let startTime := now at_start 0%nat in
  let document := DocumentIngestionPayload.document (QueueMessage.payload message) in
  let id := Document.id document in
  let messageId := correlationId (QueueMessage.metadata message) in
  try_catch
    (lockResult ← acquireProcessingLock (now at_acquire) randomUUID workerId id;
     match lockResult with
     | LockGranted lock _ =>
         try_catch (process_content message lock)
           (λ error, _ ← releaseLock workerId lock; throw error)
     | refused =>
         mret (failed_result messageId (now at_lock_failed 0%nat - startTime)
                 "LOCK_ACQUISITION_FAILED"
                 (or_else (refusal refused) "Could not acquire processing lock") true)
     end)
    (λ error,
       _ ← updateProcessingState (now at_failed 2%nat) id
             (progress_update id failed "failed" 0 0 startTime (now at_failed 1%nat)
                None (Some (error_message error)));
       mret (failed_result messageId (now at_failed 0%nat - startTime)
               "PROCESSING_FAILED" (error_message error) (isRetryableError error))).

(** [processor.processDocumentIngestion] as the dispatcher of the
    document-ingestion queue awaits it, on the fleet the message finds. *)
Definition ingestion_outcome (fleet : Coordinators)
    (message : QueueMessage DocumentIngestionPayload) : Outcome :=
  match (processDocumentIngestion message fleet).2 with
  | inl thrown => Throws thrown
  | inr result => Returns (ir_result result)
  end.

End DocumentProcessor.

(** ** [chunkText] on any number

    The parameters [chunkSize] and [overlap] come from the message payload and
    may be any JavaScript number, an IEEE 754 double; the index of the loop is
    then a double as well, and [Array.prototype.slice] truncates its bounds. *)

Inductive IntegerOrInfinity := Finite (n : Z) | PlusInfinity | MinusInfinity.

(** [ToIntegerOrInfinity]: [NaN] and the zeros give 0, any other finite number
    is truncated towards zero. *)
Definition ToIntegerOrInfinity (x : float) : IntegerOrInfinity :=
  match Prim2SF x with
  | S754_nan | S754_zero _ => Finite 0
  | S754_infinity false => PlusInfinity
  | S754_infinity true => MinusInfinity
  | S754_finite negative m e =>
      let magnitude := if 0 <=? e then Z.pos m * 2 ^ e else Z.pos m / 2 ^ (- e) in
      Finite (if negative then - magnitude else magnitude)
  end.

(** A bound of [slice] on an array of length [len]. *)
Definition relative_index (len : Z) (x : float) : Z :=
  match ToIntegerOrInfinity x with
  | MinusInfinity => 0
  | PlusInfinity => len
  | Finite n => if n <? 0 then Z.max (len + n) 0 else Z.min n len
  end.

Definition slice_number {A} (l : list A) (start end_ : float) : list A :=
  let len := Z.of_nat (length l) in
  let k := relative_index len start in
  let final := relative_index len end_ in
  take (Z.to_nat (final - k)) (drop (Z.to_nat k) l).

(** [words.length] as a number. *)
Definition number_of_nat (n : nat) : float :=
  PrimFloat.of_uint63 (Uint63.of_Z (Z.of_nat n)).

Fixpoint chunkText_number_loop (fuel : nat) (words : list string)
    (chunkSize overlap i : float) (chunks : list string) : option (list string) :=
  match fuel with
  | O => None
  | S fuel' =>
      if PrimFloat.ltb i (number_of_nat (length words)) then
        let chunk := join (slice_number words i (PrimFloat.add i chunkSize)) in
        let chunks := chunks ++ [chunk] in
        if PrimFloat.leb (number_of_nat (length words)) (PrimFloat.add i chunkSize)
        then Some chunks
        else chunkText_number_loop fuel' words chunkSize overlap
               (PrimFloat.add i (PrimFloat.sub chunkSize overlap)) chunks
      else Some chunks
  end.

(** [chunkText(text, chunkSize = 1000, overlap = 200)] on numbers. *)
Definition chunkText_number (fuel : nat) (text : string) (chunkSize overlap : option float)
    : option (list string) :=
  let chunkSize := default 1000%float chunkSize in
  let overlap := default 200%float overlap in
  let words := split_whitespace text in
  chunkText_number_loop fuel words chunkSize overlap 0%float [].

(** ** Predicates used in the statements *)

(** The instance after a sequence of requests, each handled before the next
    arrives. *)
Definition serve (requests : list Request) (this : DocumentCoordinator)
    : DocumentCoordinator :=
  foldl (λ this request, (fetch request this).1) this requests.

(** The numbers of [ack()] and [retry()] calls of a dispatch. *)
Definition acks {M} (calls : list (M * Disposition)) : nat :=
  length (List.filter (λ c, bool_decide (c.2 = ack)) calls).

Definition retries {M} (calls : list (M * Disposition)) : nat :=
  length (List.filter (λ c, bool_decide (c.2 = retry)) calls).

(** The documents a reprocessing message names, with what [processDocument]
    makes of each. *)
Definition document_outcomes (env : Env) (payload : BatchReprocessPayload)
    : list DocumentResult :=
  map (λ documentId, processDocument env documentId (BatchReprocessPayload.reason payload))
    (BatchReprocessPayload.documentIds payload).

Definition failed_outcome (result : DocumentResult) : bool :=
  negb (DocumentResult.success result).

(** The statement of the specification on sub-batches: when more than half
    of the documents of a sub-batch fail, the whole sub-batch counts as
    failed.  It is stated for a message that fits in one sub-batch. *)
Definition majority_failure_fails_sub_batch : Prop :=
  ∀ (env : Env) (payload : BatchReprocessPayload),
    let documentIds := BatchReprocessPayload.documentIds payload in
    let failures := length (List.filter failed_outcome (document_outcomes env payload)) in
    (length documentIds ≤ 5)%nat →
    (length documentIds < 2 * failures)%nat →
    BatchResults.failureCount (processBatch env payload) = length documentIds
    ∧ BatchResults.successCount (processBatch env payload) = 0%nat.

(** A word holds no whitespace. *)
Fixpoint no_whitespace (word : string) : bool :=
  match word with
  | EmptyString => true
  | String c rest => negb (is_whitespace c) && no_whitespace rest
  end.

(** ** Scenarios

    Concrete runs on which the statements below are exercised. *)

(** A batch of ten messages, [m1] to [m10], and a processor that throws on
    [m3] and succeeds on every other message. *)
Definition ten_messages : list (Message unit) :=
  map (λ name, Message.mk unit name 1 tt)
    ["m1"; "m2"; "m3"; "m4"; "m5"; "m6"; "m7"; "m8"; "m9"; "m10"].

Definition throws_on_m3 (queueMessage : QueueMessage unit) : Outcome :=
  let messageId := correlationId (QueueMessage.metadata queueMessage) in
  if String.eqb messageId "m3" then Throws (ErrorObject "boom")
  else Returns (ProcessingResult.mk true messageId 1 (Some 1) (Some 1) None).

(** The embedding model times out on the chunks of [a], [b] and [c]. *)
Definition flaky_env : Env :=
  {| AI_run := λ content,
       if String.eqb content "Chunk 0 for a" || String.eqb content "Chunk 1 for b"
          || String.eqb content "Chunk 0 for c"
       then inl (ErrorObject "timeout")
       else inr [1; 2; 3];
     VECTORIZE_INDEX_upsert := λ _ _, inr tt |}.

Definition five_documents : BatchReprocessPayload :=
  BatchReprocessPayload.mk ["a"; "b"; "c"; "d"; "e"] "model_update".

(** The batch-reprocessing processor as the dispatcher sees it; [times] gives
    the two clock readings of each call. *)
Definition reprocessor (env : Env) (times : QueueMessage BatchReprocessPayload → Z * Z)
    (message : QueueMessage BatchReprocessPayload) : Outcome :=
  Returns (rr_result (processBatchReprocess env (times message).1 (times message).2
                        message)).

(** The words of a text: the non-empty pieces between its runs of whitespace. *)
Definition nonempty (word : string) : bool := negb (String.eqb word "").

Definition words (text : string) : list string :=
  List.filter nonempty (split_whitespace text).

(** The non-empty pieces of a list, each after a space. *)
Fixpoint spaced (pieces : list string) : string :=
  match pieces with
  | [] => EmptyString
  | piece :: rest =>
      if nonempty piece then String " " (piece +:+ spaced rest) else spaced rest
  end.

(** ** Array slices *)

Lemma slice_nonneg {A} (l : list A) (start end_ : Z) :
  0 ≤ start → 0 ≤ end_ →
  slice l start end_
  = take (Z.to_nat end_ - Z.to_nat start) (drop (Z.to_nat start) l).
Proof.
  intros Hs He. unfold slice.
  destruct (Z.ltb_spec start 0); [lia|]. destruct (Z.ltb_spec end_ 0); [lia|].
  destruct (Z_le_gt_dec start (Z.of_nat (length l))) as [Hle|Hgt].
  - rewrite (Z.min_l start) by lia.
    destruct (Z_le_gt_dec end_ (Z.of_nat (length l))) as [Hle'|Hgt'].
    + rewrite (Z.min_l end_) by lia. f_equal. lia.
    + rewrite (Z.min_r end_) by lia.
      rewrite !take_ge; [done| |]; rewrite length_drop; lia.
  - rewrite (Z.min_r start) by lia. rewrite !drop_ge by lia. by rewrite !take_nil.
Qed.

Lemma slice_window {A} (l : list A) (i size : Z) :
  0 ≤ i → 0 ≤ size →
  slice l i (i + size) = take (Z.to_nat size) (drop (Z.to_nat i) l).
Proof. intros Hi Hs. rewrite slice_nonneg by lia. f_equal. lia. Qed.

Lemma slice_window_rest {A} (l : list A) (i size : Z) :
  0 ≤ i → 0 ≤ size →
  slice l i (i + size) ++ drop (Z.to_nat (i + size)) l = drop (Z.to_nat i) l.
Proof.
  intros Hi Hs. rewrite slice_window by done.
  replace (Z.to_nat (i + size)) with (Z.to_nat i + Z.to_nat size)%nat by lia.
  rewrite <- drop_drop. apply take_drop.
Qed.

(** ** The batch dispatcher *)

Section DispatcherProperties.

Context {DocumentIngestionPayload : Type}.
Variable processDocumentIngestion : QueueMessage DocumentIngestionPayload → Outcome.

Abbreviation disposition_of message :=
  (spec_disposition (processDocumentIngestion (envelope message))).

(** The chunks cover the batch, in order and without repetition. *)
Lemma chunk_loop_concat (fuel : nat) (messages : list (Message DocumentIngestionPayload))
    (concurrency i : Z) :
  1 ≤ concurrency → 0 ≤ i →
  (length messages - Z.to_nat i ≤ fuel)%nat →
  concat (chunk_loop fuel messages concurrency i) = drop (Z.to_nat i) messages.
Proof.
  intros Hc. revert i. induction fuel as [|fuel IH]; intros i Hi Hfuel.
  - cbn. rewrite drop_ge; [done|lia].
  - cbn [chunk_loop]. destruct (Z.ltb_spec i (Z.of_nat (length messages))).
    + cbn [concat]. rewrite IH by lia. apply slice_window_rest; lia.
    + cbn. rewrite drop_ge; [done|lia].
Qed.

Lemma foldl_chunks (chunks : list (list (Message DocumentIngestionPayload)))
    (acc : Dispatch) :
  foldl (λ acc chunk, foldl (process_message processDocumentIngestion) acc chunk)
    acc chunks
  = foldl (process_message processDocumentIngestion) acc (concat chunks).
Proof.
  revert acc. induction chunks as [|chunk chunks IH]; intros acc; [done|].
  cbn [foldl concat]. by rewrite IH, foldl_app.
Qed.

(** What one callback does to the counters and to the list of calls. *)
Lemma process_message_step (r : BatchProcessingResult)
    (calls : list (Message DocumentIngestionPayload * Disposition))
    (message : Message DocumentIngestionPayload) :
  let after := process_message processDocumentIngestion (r, calls) message in
  after.2 = calls ++ [(message, disposition_of message)]
  ∧ totalMessages after.1 = totalMessages r
  ∧ (successCount after.1 + failureCount after.1
     = S (successCount r + failureCount r))%nat.
Proof.
  unfold process_message, spec_disposition. cbn zeta.
  destruct (processDocumentIngestion (envelope message)) as [result|thrown].
  - destruct (ProcessingResult.success result).
    + cbn. split; [done|]. split; [done|lia].
    + destruct (ProcessingResult.error result) as [e|]; cbn.
      * destruct (ProcessingError.retryable e); cbn; (split; [done|]); split; [done|lia|done|lia].
      * split; [done|]. split; [done|lia].
  - cbn. split; [done|]. split; [done|lia].
Qed.

Lemma process_messages_fold (messages : list (Message DocumentIngestionPayload))
    (acc : Dispatch) :
  let after := foldl (process_message processDocumentIngestion) acc messages in
  after.2 = acc.2 ++ map (λ m, (m, disposition_of m)) messages
  ∧ totalMessages after.1 = totalMessages acc.1
  ∧ (successCount after.1 + failureCount after.1
     = successCount acc.1 + failureCount acc.1 + length messages)%nat.
Proof.
  revert acc. induction messages as [|m messages IH]; intros [r calls].
  { cbn. rewrite app_nil_r. repeat split; lia. }
  cbn [foldl]. destruct (process_message_step r calls m) as (Hc & Ht & Hn).
  destruct (process_message processDocumentIngestion (r, calls) m) as [r' calls'].
  cbn [fst snd] in *. destruct (IH (r', calls')) as (Hc' & Ht' & Hn').
  cbn zeta. cbn [fst snd] in *. rewrite Hc', Ht', Hn', Hc, Ht, Hn.
  rewrite <- app_assoc. cbn. repeat split; lia.
Qed.

Lemma handleDocumentIngestion_fold (startTime endTime : Z)
    (messages : list (Message DocumentIngestionPayload)) :
  let after := handleDocumentIngestion processDocumentIngestion startTime endTime messages in
  after.2 = map (λ m, (m, disposition_of m)) messages
  ∧ totalMessages after.1 = length messages
  ∧ (successCount after.1 + failureCount after.1 = length messages)%nat.
Proof.
  unfold handleDocumentIngestion. rewrite foldl_chunks.
  destruct messages as [|m messages].
  { cbn. repeat split. }
  rewrite chunk_loop_concat; [|cbn [length]; lia..].
  change (Z.to_nat 0) with 0%nat. rewrite drop_0.
  set (acc := (_, [])).
  destruct (process_messages_fold (m :: messages) acc) as (Hc & Ht & Hn).
  destruct (foldl (process_message processDocumentIngestion) acc (m :: messages))
    as [r calls].
  subst acc. cbn in *. subst calls. repeat split; lia.
Qed.

End DispatcherProperties.

(** C4. For every delivered document-ingestion batch the calls of [ack()] and
    [retry()] are, message by message and in order, exactly one per message
    and the one the specification names: ack on success, retry on a retryable
    failure, ack on a non-retryable failure, retry when the processor throws.
    The reported [successCount + failureCount] equals [totalMessages], the
    size of the batch.  In a batch of ten whose third message throws while the
    others succeed there are nine acks and one retry. *)
Theorem dispatch_one_disposition_each {DocumentIngestionPayload : Type}
    (processDocumentIngestion : QueueMessage DocumentIngestionPayload → Outcome)
    (startTime endTime : Z) (messages : list (Message DocumentIngestionPayload)) :
  let after :=
    handleDocumentIngestion processDocumentIngestion startTime endTime messages in
  after.2
  = map (λ m, (m, spec_disposition (processDocumentIngestion (envelope m)))) messages
  ∧ totalMessages after.1 = length messages
  ∧ (successCount after.1 + failureCount after.1)%nat = totalMessages after.1
  ∧ (length messages = 10%nat →
     (∀ m, messages !! 2%nat = Some m →
        ∃ thrown, processDocumentIngestion (envelope m) = Throws thrown) →
     (∀ i m, i ≠ 2%nat → messages !! i = Some m →
        ∃ result, processDocumentIngestion (envelope m) = Returns result
                  ∧ ProcessingResult.success result = true) →
     acks after.2 = 9%nat ∧ retries after.2 = 1%nat).
Proof.
  intros after.
  destruct (handleDocumentIngestion_fold processDocumentIngestion startTime endTime
              messages) as (Hcalls & Htotal & Hsum).
  fold after in Hcalls, Htotal, Hsum.
  split; [exact Hcalls|]. split; [exact Htotal|]. split; [lia|].
  intros Hlen Hthird Hothers. rewrite Hcalls. clear after Hcalls Htotal Hsum.
  destruct messages as [|a0 [|a1 [|a2 [|a3 [|a4 [|a5 [|a6 [|a7 [|a8 [|a9 [|? ?]]]]]]]]]]];
    try discriminate Hlen.
  assert (∀ i m, i ≠ 2%nat → [a0; a1; a2; a3; a4; a5; a6; a7; a8; a9] !! i = Some m →
            spec_disposition (processDocumentIngestion (envelope m)) = ack) as Hack.
  { intros i x Hi Hx. destruct (Hothers i x Hi Hx) as (result & -> & Hs).
    cbn. by rewrite Hs. }
  assert (spec_disposition (processDocumentIngestion (envelope a2)) = retry) as Hretry.
  { destruct (Hthird a2 eq_refl) as (thrown & ->). done. }
  unfold acks, retries. cbn [map].
  rewrite (Hack 0%nat a0), (Hack 1%nat a1), Hretry, (Hack 3%nat a3), (Hack 4%nat a4),
    (Hack 5%nat a5), (Hack 6%nat a6), (Hack 7%nat a7), (Hack 8%nat a8), (Hack 9%nat a9)
    by done.
  done.
Qed.

Lemma dispatch_one_disposition_each_witness :
  acks (handleDocumentIngestion throws_on_m3 0 5 ten_messages).2 = 9%nat
  ∧ retries (handleDocumentIngestion throws_on_m3 0 5 ten_messages).2 = 1%nat.
Proof.
  apply (proj2 (proj2 (proj2 (dispatch_one_disposition_each throws_on_m3 0 5
                                ten_messages)))).
  - reflexivity.
  - intros m Hm. injection Hm as <-. by eexists.
  - intros i m Hi Hm.
    do 10 (destruct i as [|i]; [first [by destruct Hi | injection Hm as <-; by eexists]|]).
    discriminate Hm.
Defined.

(** ** Batch reprocessing *)

Section BatchProcessorProperties.

Variable env : Env.

Lemma processBatch_loop_fold (fuel : nat) (documentIds : list string) (reason : string)
    (i : Z) (results : BatchResults) :
  0 ≤ i → (length documentIds - Z.to_nat i ≤ fuel)%nat →
  processBatch_loop env fuel documentIds reason i results
  = foldl aggregate results
      (map (λ documentId, processDocument env documentId reason)
         (drop (Z.to_nat i) documentIds)).
Proof.
  revert i results. induction fuel as [|fuel IH]; intros i results Hi Hfuel.
  - cbn. rewrite drop_ge; [done|lia].
  - cbn [processBatch_loop].
    destruct (Z.ltb_spec i (Z.of_nat (length documentIds))).
    + rewrite IH by (unfold batchSize; lia).
      rewrite <- foldl_app, <- map_app.
      by rewrite slice_window_rest by (unfold batchSize; lia).
    + rewrite drop_ge; [done|lia].
Qed.

Lemma aggregate_fold (outcomes : list DocumentResult) (results : BatchResults) :
  foldl aggregate results outcomes
  = BatchResults.mk
      (BatchResults.successCount results
       + length (List.filter DocumentResult.success outcomes))
      (BatchResults.failureCount results
       + length (List.filter failed_outcome outcomes))
      (BatchResults.errors results
       ++ map (λ o, DocumentError.mk (DocumentResult.documentId o) (DocumentResult.error o))
            (List.filter failed_outcome outcomes)).
Proof.
  revert results. induction outcomes as [|o outcomes IH]; intros results.
  { destruct results. cbn. by rewrite !Nat.add_0_r, app_nil_r. }
  cbn [foldl]. rewrite IH. unfold aggregate, failed_outcome. cbn [List.filter].
  destruct (DocumentResult.success o); cbn.
  - by rewrite Nat.add_succ_r.
  - by rewrite Nat.add_succ_r, <- app_assoc.
Qed.

Lemma filter_split_length (outcomes : list DocumentResult) :
  (length (List.filter DocumentResult.success outcomes)
   + length (List.filter failed_outcome outcomes) = length outcomes)%nat.
Proof.
  induction outcomes as [|o outcomes IH]; [done|].
  cbn [List.filter]. unfold failed_outcome at 1.
  destruct (DocumentResult.success o); cbn [negb length];
    rewrite ?Nat.add_succ_r; cbn [Nat.add]; by rewrite IH.
Qed.

End BatchProcessorProperties.

(** C5, as the specification states it, fails: of five documents reprocessed
    for a model update, three fail; the two that succeed are still counted as
    successes and the failure count is three, not five. *)
Lemma process_batch_keeps_minority_successes :
  length (List.filter failed_outcome (document_outcomes flaky_env five_documents)) = 3%nat
  ∧ processBatch flaky_env five_documents
    = BatchResults.mk 2 3
        [DocumentError.mk "a" (Some "timeout");
         DocumentError.mk "b" (Some "timeout");
         DocumentError.mk "c" (Some "timeout")]
  ∧ ¬ majority_failure_fails_sub_batch.
Proof.
  split; [reflexivity|]. split; [reflexivity|].
  intros Hclaim. specialize (Hclaim flaky_env five_documents).
  destruct Hclaim as [Hfail _]; [vm_compute; lia..|]. discriminate Hfail.
Qed.

(** C5, amended. [processBatch] has no threshold on the failures of a
    sub-batch: every document of the message is processed and counted on its
    own, whatever happened to the documents before it.  [successCount] is the
    number of documents whose processing succeeded, [failureCount] the number
    of those whose processing failed, the two add up to the number of
    documents, and [errors] lists the failed documents in order. *)
Theorem process_batch_counts_each_document (env : Env) (payload : BatchReprocessPayload) :
  let outcomes := document_outcomes env payload in
  let results := processBatch env payload in
  BatchResults.successCount results = length (List.filter DocumentResult.success outcomes)
  ∧ BatchResults.failureCount results = length (List.filter failed_outcome outcomes)
  ∧ (BatchResults.successCount results + BatchResults.failureCount results
     = length (BatchReprocessPayload.documentIds payload))%nat
  ∧ BatchResults.errors results
    = map (λ o, DocumentError.mk (DocumentResult.documentId o) (DocumentResult.error o))
        (List.filter failed_outcome outcomes).
Proof.
  intros outcomes results. subst results. unfold processBatch.
  rewrite processBatch_loop_fold by lia.
  change (Z.to_nat 0) with 0%nat. rewrite drop_0. fold (document_outcomes env payload).
  fold outcomes. rewrite aggregate_fold. cbn.
  repeat split. rewrite filter_split_length. subst outcomes.
  unfold document_outcomes. by rewrite length_map.
Qed.

(** ** Chunking *)

Lemma split_go_length (in_separator : bool) (s : string) :
  (1 ≤ length (split_go in_separator s))%nat.
Proof.
  revert in_separator. induction s as [|c s IH]; intros b; cbn; [lia|].
  destruct (is_whitespace c).
  - destruct b; [apply IH|cbn; lia].
  - specialize (IH false). destruct (split_go false s); cbn in *; lia.
Qed.

Lemma split_go_no_whitespace (in_separator : bool) (s : string) :
  Forall (λ word, no_whitespace word = true) (split_go in_separator s).
Proof.
  revert in_separator. induction s as [|c s IH]; intros b; cbn [split_go].
  { by repeat constructor. }
  destruct (is_whitespace c) eqn:Hc.
  - destruct b; [apply IH|]. constructor; [done|apply IH].
  - specialize (IH false). destruct (split_go false s) as [|piece pieces].
    + repeat constructor. cbn [no_whitespace]. by rewrite Hc.
    + apply Forall_cons in IH as [Hp Hps]. constructor; [|done].
      cbn [no_whitespace]. by rewrite Hc, Hp.
Qed.

(** A word in front of a string adds no piece: it extends the first one. *)
Lemma split_go_word_prefix (word s : string) (in_separator : bool) :
  no_whitespace word = true →
  ∃ b, length (split_go in_separator (word +:+ s)) = length (split_go b s).
Proof.
  revert in_separator. induction word as [|c word IH]; intros b Hw.
  { by exists b. }
  cbn [no_whitespace] in Hw. apply andb_true_iff in Hw as [Hc Hw].
  apply negb_true_iff in Hc.
  destruct (IH false Hw) as [b' Hb'].
  exists b'. rewrite <- Hb'.
  change (String c word +:+ s) with (String c (word +:+ s)).
  cbn [split_go]. rewrite Hc.
  pose proof (split_go_length false (word +:+ s)).
  destruct (split_go false (word +:+ s)); cbn in *; lia.
Qed.

Lemma append_empty_r (s : string) : s +:+ "" = s.
Proof.
  induction s as [|c s IH]; [done|].
  change (String c (s +:+ "") = String c s). by rewrite IH.
Qed.

(** Joining words with spaces and splitting again yields no more pieces than
    there were words. *)
Lemma split_join_length (words : list string) (in_separator : bool) :
  words ≠ [] →
  Forall (λ word, no_whitespace word = true) words →
  (length (split_go in_separator (join words)) ≤ length words)%nat.
Proof.
  revert in_separator. induction words as [|word words IH]; intros b Hne Hws; [done|].
  apply Forall_cons in Hws as [Hw Hws]. unfold join in *.
  destruct words as [|word' words].
  - cbn [String.concat]. destruct (split_go_word_prefix word "" b Hw) as [b' Hb'].
    rewrite append_empty_r in Hb'. rewrite Hb'. cbn. lia.
  - change (String.concat " " (word :: word' :: words))
      with (word +:+ String " " (String.concat " " (word' :: words))).
    destruct (split_go_word_prefix word
                (String " " (String.concat " " (word' :: words))) b Hw) as [b' ->].
    specialize (IH true ltac:(done) Hws).
    cbn [split_go]. change (is_whitespace " ") with true. cbn match.
    destruct b'; cbn [length] in *; lia.
Qed.

Lemma word_count_join (words : list string) :
  words ≠ [] →
  Forall (λ word, no_whitespace word = true) words →
  (word_count (join words) ≤ length words)%nat.
Proof. apply split_join_length. Qed.

(** More fuel does not change a result. *)
Lemma chunkText_loop_fuel (fuel fuel' : nat) (words : list string)
    (chunkSize overlap i : Z) (chunks result : list string) :
  chunkText_loop fuel words chunkSize overlap i chunks = Some result →
  (fuel ≤ fuel')%nat →
  chunkText_loop fuel' words chunkSize overlap i chunks = Some result.
Proof.
  revert fuel' i chunks. induction fuel as [|fuel IH]; intros fuel' i chunks H Hle.
  { discriminate H. }
  destruct fuel' as [|fuel']; [lia|]. cbn [chunkText_loop] in *.
  destruct (i <? Z.of_nat (length words)); [|done].
  destruct (i + chunkSize >=? Z.of_nat (length words)); [done|].
  apply IH; [done|lia].
Qed.

(** With [chunkSize > overlap ≥ 0] the index grows at every iteration, so the
    loop returns, and every chunk it pushes has at most [chunkSize] words. *)
Lemma chunkText_loop_returns (fuel : nat) (words : list string)
    (chunkSize overlap i : Z) (chunks : list string) :
  chunkSize > overlap → overlap >= 0 → 0 ≤ i →
  Forall (λ word, no_whitespace word = true) words →
  (Z.to_nat (Z.of_nat (length words) - i) < fuel)%nat →
  ∃ pushed,
    chunkText_loop fuel words chunkSize overlap i chunks = Some (chunks ++ pushed)
    ∧ (i < Z.of_nat (length words) → pushed ≠ [])
    ∧ Forall (λ chunk, Z.of_nat (word_count chunk) ≤ chunkSize) pushed.
Proof.
  intros Hstep Hov. revert i chunks.
  induction fuel as [|fuel IH]; intros i chunks Hi Hws Hfuel; [lia|].
  cbn [chunkText_loop]. destruct (Z.ltb_spec i (Z.of_nat (length words))) as [Hin|Hout].
  - assert (Z.of_nat (word_count (join (slice words i (i + chunkSize)))) ≤ chunkSize)
      as Hcount.
    { rewrite slice_window by lia.
      etrans; [apply inj_le, word_count_join|].
      - intros Hnil. apply (f_equal length) in Hnil.
        rewrite length_take, length_drop in Hnil. cbn in Hnil. lia.
      - by apply Forall_take, Forall_drop.
      - rewrite length_take. lia. }
    destruct (Z.geb_spec (i + chunkSize) (Z.of_nat (length words))).
    + eexists [_]. split; [done|]. split; [done|]. by constructor.
    + destruct (IH (i + (chunkSize - overlap))
                  (chunks ++ [join (slice words i (i + chunkSize))]))
        as (pushed & Hrun & _ & Hall); [lia|done|lia|].
      exists (join (slice words i (i + chunkSize)) :: pushed).
      rewrite Hrun, <- app_assoc. split; [done|]. split; [done|]. by constructor.
  - exists []. rewrite app_nil_r. split; [done|]. split; [lia|constructor].
Qed.

(** When [chunkSize = overlap] the index stands still and the loop never
    returns, whatever the fuel. *)
Lemma chunkText_loop_stuck (fuel : nat) (chunks : list string) :
  chunkText_loop fuel ["a"; "b"; "c"] 1 1 0 chunks = None.
Proof.
  revert chunks. induction fuel as [|fuel IH]; intros chunks; [done|].
  cbn [chunkText_loop]. cbn [length Z.of_nat Z.ltb Z.geb Z.compare Z.add Z.sub
                             Pos.of_succ_nat Pos.succ Pos.compare Pos.compare_cont
                             Z.opp Z.pos_sub].
  apply IH.
Qed.

(** C10, amended. For every text and all integer parameters with
    [chunkSize > overlap ≥ 0], [chunkText] returns: once the fuel exceeds the
    number of words of the text, the result is the same list of chunks
    whatever the fuel.  That list is not empty and each of its chunks has at
    most [chunkSize] words. *)
Theorem chunkText_returns_bounded_chunks (text : string) (chunkSize overlap : option Z) :
  default 1000 chunkSize > default 200 overlap →
  default 200 overlap >= 0 →
  ∃ chunks,
    (∀ fuel, (length (split_whitespace text) < fuel)%nat →
       chunkText fuel text chunkSize overlap = Some chunks)
    ∧ chunks ≠ []
    ∧ Forall (λ chunk, Z.of_nat (word_count chunk) ≤ default 1000 chunkSize) chunks.
Proof.
  intros Hstep Hov. unfold chunkText.
  pose proof (split_go_length false text) as Hlen.
  pose proof (split_go_no_whitespace false text) as Hws.
  fold (split_whitespace text) in Hlen, Hws.
  destruct (chunkText_loop_returns (S (length (split_whitespace text)))
              (split_whitespace text) (default 1000 chunkSize) (default 200 overlap)
              0 [] Hstep Hov) as (chunks & Hrun & Hne & Hall); [lia|done|lia|].
  exists chunks. cbn [app] in Hrun. split; [|split; [apply Hne; lia|done]].
  intros fuel Hfuel. eapply chunkText_loop_fuel; [exact Hrun|lia].
Qed.

Lemma chunkText_returns_bounded_chunks_witness :
  ∃ chunks,
    (∀ fuel, (length (split_whitespace "a b c d e f g") < fuel)%nat →
       chunkText fuel "a b c d e f g" (Some 3) (Some 1) = Some chunks)
    ∧ chunks ≠ []
    ∧ Forall (λ chunk, Z.of_nat (word_count chunk) ≤ 3) chunks.
Proof.
  apply (chunkText_returns_bounded_chunks "a b c d e f g" (Some 3) (Some 1)).
  - reflexivity.
  - discriminate.
Defined.


(** C10, as the specification states it, fails for a chunk size that is not
    an integer.  With [chunkSize = 1.5] and [overlap = 1], which satisfy
    [chunkSize > overlap ≥ 0], the index takes the values 0, 0.5, 1 and 1.5;
    [slice] truncates both of its bounds, and the second chunk of [a b c]
    holds two words. *)
Lemma chunkText_fractional_size_exceeded :
  PrimFloat.ltb 1 1.5 = true
  ∧ PrimFloat.leb 0 1 = true
  ∧ chunkText_number 5 "a b c" (Some 1.5%float) (Some 1%float)
    = Some ["a"; "a b"; "b"; "b c"]
  ∧ ¬ Forall (λ chunk,
               PrimFloat.leb (number_of_nat (word_count chunk)) 1.5 = true)
        ["a"; "a b"; "b"; "b c"].
Proof.
  split; [reflexivity|]. split; [reflexivity|]. split; [vm_compute; reflexivity|].
  intros Hall. apply Forall_cons in Hall as [_ Hall].
  apply Forall_cons in Hall as [Hsecond _]. vm_compute in Hsecond. discriminate.
Qed.

(** ** The coordinator as its constructor leaves it *)

(** No request changes the instance, nor the storage it was constructed on. *)
Lemma fetch_construct (state : DurableObjectState) (request : Request) :
  (fetch request (construct state)).1 = construct state.
Proof.
  destruct request as [| |now [[|c d]|]| |[[|c d]|]| | |]; reflexivity.
Qed.

Lemma serve_construct (state : DurableObjectState) (requests : list Request) :
  serve requests (construct state) = construct state.
Proof.
  unfold serve. induction requests as [|request requests IH]; [done|].
  cbn [foldl]. by rewrite fetch_construct.
Qed.

Lemma storage_of_refresh (fleet : Coordinators) (documentId name : string) :
  storage_of name (<[documentId := storage_of documentId fleet]> fleet)
  = storage_of name fleet.
Proof.
  unfold storage_of at 1. destruct (decide (documentId = name)) as [->|Hne].
  - by rewrite lookup_insert_eq.
  - by rewrite lookup_insert_ne.
Qed.

(** The calls of the document processor on a coordinator reject, and leave
    the fleet with the storages it had. *)
Lemma acquireProcessingLock_rejects (now : nat → Z) (randomUUID workerId : string)
    (documentId : string) (fleet : Coordinators) :
  acquireProcessingLock now randomUUID workerId documentId fleet
  = (<[documentId := storage_of documentId fleet]> fleet,
     inl TypeError_undefined_storage).
Proof. reflexivity. Qed.

Lemma checkDeduplication_rejects (documentId contentHash : string)
    (fleet : Coordinators) :
  checkDeduplication documentId contentHash fleet
  = (<[documentId := storage_of documentId fleet]> fleet,
     inl TypeError_undefined_storage).
Proof. reflexivity. Qed.

Lemma updateProcessingState_rejects (now : Z) (documentId : string)
    (state : ProcessingState) (fleet : Coordinators) :
  updateProcessingState now documentId state fleet
  = (<[documentId := storage_of documentId fleet]> fleet,
     inl TypeError_undefined_storage).
Proof. reflexivity. Qed.

(** ** Locks *)



(** C8.  [release-lock] answers neither [NotFound] nor [Forbidden]: whatever
    the storage holds, whatever requests came before and whatever lock and
    worker the request names, the call rejects with the [TypeError] before it
    looks for the record, and deletes nothing. *)
Theorem release_lock_answers_no_status (state : DurableObjectState)
    (earlier : list Request) (documentId lockId workerId : string) :
  fetch (ReleaseLock documentId lockId workerId) (serve earlier (construct state))
  = (construct state, inl TypeError_undefined_storage).
Proof. by rewrite serve_construct. Qed.

(** ** Processing states *)


(** C6.  [update-state] stores no record.  Whatever the storage holds,
    whatever requests came before and whatever the update, the call rejects
    with the [TypeError] before the merge: no record is written, none is
    stamped with the time of the coordinator. *)
Theorem update_state_stores_nothing (state : DurableObjectState)
    (earlier : list Request) (now : Z) (stateUpdate : ProcessingState) :
  fetch (UpdateState now stateUpdate) (serve earlier (construct state))
  = (construct state, inl TypeError_undefined_storage).
Proof. by rewrite serve_construct. Qed.

(** ** Content hashes *)

(** C2.  Two documents with the same content are not told apart from two
    documents with different contents: [checkDeduplication] for [D1] and then
    for [D2], with one hash, rejects both times with the [TypeError], reports
    no duplicate and records no owner in any storage. *)
Theorem deduplication_rejects_both_calls (fleet : Coordinators)
    (D1 D2 contentHash : string) :
  let first := checkDeduplication D1 contentHash fleet in
  let second := checkDeduplication D2 contentHash first.1 in
  first.2 = inl TypeError_undefined_storage
  ∧ second.2 = inl TypeError_undefined_storage
  ∧ ∀ name, storage_of name second.1 = storage_of name fleet.
Proof.
  cbn zeta. rewrite !checkDeduplication_rejects. cbn [fst snd].
  split; [done|]. split; [done|]. intros name. by rewrite !storage_of_refresh.
Qed.

(** ** Cleanup *)


(** * Further properties of the code *)

(** ** The coordinator *)


(** ** The dispatchers *)

Lemma slice_window_length {A} (l : list A) (i size : Z) :
  0 ≤ i → 0 ≤ size →
  length (slice l i (i + size)) = (Z.to_nat size `min` (length l - Z.to_nat i))%nat.
Proof.
  intros Hi Hs. rewrite slice_window by done. by rewrite length_take, length_drop.
Qed.

Lemma chunk_loop_bounds {Body : Type} (fuel : nat) (messages : list (Message Body))
    (concurrency i : Z) :
  1 ≤ concurrency → 0 ≤ i →
  Forall (λ chunk, (1 ≤ length chunk ≤ Z.to_nat concurrency)%nat)
    (chunk_loop fuel messages concurrency i).
Proof.
  intros Hc. revert i. induction fuel as [|fuel IH]; intros i Hi; [constructor|].
  cbn [chunk_loop]. destruct (Z.ltb_spec i (Z.of_nat (length messages))); [|constructor].
  constructor; [|apply IH; lia].
  rewrite slice_window_length by lia. lia.
Qed.

(** X12. Bounded concurrency.  The chunks that [handleDocumentIngestion]
    (limit 5) and [handleWebhookProcessing] (limit 10) build from a batch hold
    between one message and the limit, and put end to end they are the batch:
    no chunk is empty, none exceeds the limit, no message is left out or taken
    twice. *)
Theorem chunks_respect_the_limit {Body : Type} (messages : list (Message Body))
    (limit : Z) :
  1 ≤ limit →
  let concurrency := Z.min (Z.of_nat (length messages)) limit in
  let chunks := chunk_loop (length messages) messages concurrency 0 in
  concat chunks = messages
  ∧ Forall (λ chunk, (1 ≤ length chunk)%nat ∧ Z.of_nat (length chunk) ≤ limit) chunks.
Proof.
  intros Hlimit concurrency chunks. subst chunks concurrency.
  destruct messages as [|m messages]; [by split; [|constructor]|].
  split.
  - rewrite chunk_loop_concat; [done|cbn [length]; lia..].
  - eapply Forall_impl; [apply chunk_loop_bounds; cbn [length]; lia|].
    cbn beta. intros chunk [H1 H2]. split; [done|]. lia.
Qed.

Lemma chunks_respect_the_limit_witness :
  Forall (λ chunk : list (Message unit),
            (1 ≤ length chunk)%nat ∧ Z.of_nat (length chunk) ≤ 5)
    (chunk_loop (length ten_messages) ten_messages
       (Z.min (Z.of_nat (length ten_messages)) 5) 0).
Proof.
  apply (chunks_respect_the_limit ten_messages 5). lia.
Defined.

Section OtherDispatcherProperties.

Context {Body : Type}.
Variable processDocumentIngestion : QueueMessage Body → Outcome.
Variable processWebhookSync : QueueMessage Body → Outcome.
Variable processBatchReprocess : QueueMessage Body → Outcome.

Lemma process_webhook_messages_fold (messages : list (Message Body))
    (acc : WebhookDispatch) :
  let after := foldl (process_webhook_message processWebhookSync) acc messages in
  wh_calls after
  = wh_calls acc
    ++ map (λ m, (m, spec_disposition (processWebhookSync (webhook_envelope m)))) messages
  ∧ (wh_successCount after + wh_failureCount after
     = wh_successCount acc + wh_failureCount acc + length messages)%nat
  ∧ (wh_successCount after
     = wh_successCount acc
       + length (List.filter
                   (λ m, match processWebhookSync (webhook_envelope m) with
                         | Returns result => ProcessingResult.success result
                         | Throws _ => false
                         end) messages))%nat.
Proof.
  revert acc. induction messages as [|m messages IH]; intros acc.
  { cbn. rewrite app_nil_r. repeat split; lia. }
  cbn [foldl]. destruct (IH (process_webhook_message processWebhookSync acc m))
    as (Hc & Hn & Hs).
  cbn zeta in *. rewrite Hc, Hn, Hs. clear IH Hc Hn Hs.
  unfold process_webhook_message, spec_disposition. cbn [map List.filter].
  destruct (processWebhookSync (webhook_envelope m)) as [result|thrown].
  - destruct (ProcessingResult.success result).
    + cbn. rewrite <- app_assoc. repeat split; lia.
    + destruct (ProcessingResult.error result) as [e|]; cbn.
      * destruct (ProcessingError.retryable e); cbn; rewrite <- app_assoc;
          repeat split; lia.
      * rewrite <- app_assoc. repeat split; lia.
  - cbn. rewrite <- app_assoc. repeat split; lia.
Qed.

Lemma foldl_webhook_chunks (chunks : list (list (Message Body))) (acc : WebhookDispatch) :
  foldl (λ acc chunk, foldl (process_webhook_message processWebhookSync) acc chunk)
    acc chunks
  = foldl (process_webhook_message processWebhookSync) acc (concat chunks).
Proof.
  revert acc. induction chunks as [|chunk chunks IH]; intros acc; [done|].
  cbn [foldl concat]. by rewrite IH, foldl_app.
Qed.

Lemma handleWebhookProcessing_fold (messages : list (Message Body)) :
  handleWebhookProcessing processWebhookSync messages
  = foldl (process_webhook_message processWebhookSync)
      {| wh_successCount := 0; wh_failureCount := 0; wh_calls := [] |} messages.
Proof.
  unfold handleWebhookProcessing. rewrite foldl_webhook_chunks.
  destruct messages as [|m messages]; [done|].
  rewrite chunk_loop_concat; [done|cbn [length]; lia..].
Qed.

Lemma reprocess_messages_fold (messages : list (Message Body))
    (calls : list (Message Body * Disposition)) :
  foldl (reprocess_message processBatchReprocess) calls messages
  = calls
    ++ map (λ m, (m, spec_disposition (processBatchReprocess (reprocess_envelope m))))
         messages.
Proof.
  revert calls. induction messages as [|m messages IH]; intros calls.
  { cbn. by rewrite app_nil_r. }
  cbn [foldl map]. rewrite IH. unfold reprocess_message, spec_disposition.
  destruct (processBatchReprocess (reprocess_envelope m)) as [result|thrown].
  - destruct (ProcessingResult.success result); [by rewrite <- app_assoc|].
    destruct (ProcessingResult.error result) as [e|]; cbn.
    + by destruct (ProcessingError.retryable e); rewrite <- app_assoc.
    + by rewrite <- app_assoc.
  - by rewrite <- app_assoc.
Qed.

Lemma handleWebhookProcessing_calls (messages : list (Message Body)) :
  wh_calls (handleWebhookProcessing processWebhookSync messages)
  = map (λ m, (m, spec_disposition (processWebhookSync (webhook_envelope m)))) messages.
Proof.
  rewrite handleWebhookProcessing_fold.
  destruct (process_webhook_messages_fold messages
              {| wh_successCount := 0; wh_failureCount := 0; wh_calls := [] |})
    as (Hc & _).
  cbn zeta in *. by rewrite Hc.
Qed.

End OtherDispatcherProperties.

(** X13. [handleWebhookProcessing] gives every message of the batch exactly
    one disposition: ack on success, retry on a retryable failure, ack on a
    failure that is not retryable or carries no error, retry when the
    processor throws.  The callbacks of a chunk run under [Promise.all], so
    the order of the calls is left open: the calls are the ones listed, in
    some order.  The [successCount] is the number of messages whose processing
    succeeded and [successCount + failureCount] is the size of the batch. *)
Theorem webhook_dispatch_one_disposition_each {Body : Type}
    (processWebhookSync : QueueMessage Body → Outcome) (messages : list (Message Body)) :
  let after := handleWebhookProcessing processWebhookSync messages in
  wh_calls after
  ≡ₚ map (λ m, (m, spec_disposition (processWebhookSync (webhook_envelope m)))) messages
  ∧ (wh_successCount after + wh_failureCount after = length messages)%nat
  ∧ wh_successCount after
    = length (List.filter
                (λ m, match processWebhookSync (webhook_envelope m) with
                      | Returns result => ProcessingResult.success result
                      | Throws _ => false
                      end) messages).
Proof.
  intros after. subst after. rewrite handleWebhookProcessing_fold.
  destruct (process_webhook_messages_fold processWebhookSync messages
              {| wh_successCount := 0; wh_failureCount := 0; wh_calls := [] |})
    as (Hc & Hn & Hs).
  cbn zeta in *. rewrite Hc, Hn, Hs. done.
Qed.


(** X14. [handleBatchReprocessing] handles the messages one after the other
    and gives each exactly one disposition: ack on success, retry on a
    retryable failure, ack on any other failure, retry when the processor
    throws. *)
Theorem reprocess_dispatch_one_disposition_each {Body : Type}
    (processBatchReprocess : QueueMessage Body → Outcome)
    (messages : list (Message Body)) :
  handleBatchReprocessing processBatchReprocess messages
  = map (λ m, (m, spec_disposition (processBatchReprocess (reprocess_envelope m))))
      messages.
Proof. unfold handleBatchReprocessing. by rewrite reprocess_messages_fold. Qed.

(** X15. [queueHandler] loses no message: whatever the name of the queue,
    every message of the batch gets exactly one disposition.  For a queue name
    other than the three it serves, every message is acknowledged and the
    handler throws [Unsupported queue: <name>]; for the three it serves it
    throws nothing. *)
Theorem queue_handler_disposes_of_every_message {Body : Type}
    (processDocumentIngestion processWebhookSync processBatchReprocess :
       QueueMessage Body → Outcome)
    (queue : string) (startTime endTime : Z) (messages : list (Message Body)) :
  let handled :=
    queueHandler processDocumentIngestion processWebhookSync processBatchReprocess
      queue startTime endTime messages in
  map fst handled.1 = messages
  ∧ (queue ≠ "document-ingestion" → queue ≠ "webhook-processing" →
     queue ≠ "batch-reprocessing" →
     handled = (map (λ m, (m, ack)) messages,
                Some (ErrorObject ("Unsupported queue: " +:+ queue))))
  ∧ (queue = "document-ingestion" ∨ queue = "webhook-processing"
     ∨ queue = "batch-reprocessing" → handled.2 = None).
Proof.
  intros handled. subst handled. unfold queueHandler.
  assert (∀ f : Message Body → Disposition,
            map fst (map (λ m, (m, f m)) messages) = messages) as Hfst.
  { intros f. rewrite map_map. cbn. apply map_id. }
  destruct (String.eqb_spec queue "document-ingestion") as [->|H1].
  { cbn [fst snd].
    rewrite (proj1 (handleDocumentIngestion_fold processDocumentIngestion startTime
                      endTime messages)).
    split; [apply Hfst|]. split; [done|done]. }
  destruct (String.eqb_spec queue "webhook-processing") as [->|H2].
  { cbn [fst snd].
    rewrite (handleWebhookProcessing_calls processWebhookSync messages).
    split; [apply Hfst|]. split; [done|done]. }
  destruct (String.eqb_spec queue "batch-reprocessing") as [->|H3].
  { cbn [fst snd].
    unfold handleBatchReprocessing. rewrite reprocess_messages_fold. cbn [app].
    split; [apply Hfst|]. split; [done|done]. }
  cbn [fst snd]. split; [apply (Hfst (λ _, ack))|]. split; [done|].
  by intros [?|[?|?]].
Qed.

Lemma queue_handler_disposes_of_every_message_witness :
  queueHandler throws_on_m3 throws_on_m3 throws_on_m3 "dead-letter" 0 5 ten_messages
  = (map (λ m, (m, ack)) ten_messages,
     Some (ErrorObject "Unsupported queue: dead-letter")).
Proof.
  apply (proj1 (proj2 (queue_handler_disposes_of_every_message throws_on_m3
                         throws_on_m3 throws_on_m3 "dead-letter" 0 5 ten_messages)));
    discriminate.
Defined.

(** ** Batch reprocessing: documents and messages *)

(** X16. What [processDocument] answers.  The result names the document it
    was asked for and carries an error message exactly when it reports a
    failure.  The reasons [schema_change], [policy_change] and
    [manual_reindex] succeed for every document; [model_update] succeeds
    exactly when the embedding and the upsert of both stored chunks return; any
    other reason fails with [Unknown reprocessing reason: <reason>]. *)
Theorem process_document_outcome (env : Env) (documentId reason : string) :
  let result := processDocument env documentId reason in
  DocumentResult.documentId result = documentId
  ∧ (DocumentResult.success result = false ↔ is_Some (DocumentResult.error result))
  ∧ (reason = "schema_change" ∨ reason = "policy_change" ∨ reason = "manual_reindex" →
     DocumentResult.success result = true)
  ∧ (reason = "model_update" →
     (DocumentResult.success result = true
      ↔ ∃ e0 e1,
          AI_run env ("Chunk 0 for " +:+ documentId) = inr e0
          ∧ VECTORIZE_INDEX_upsert env (documentId +:+ "#0") e0 = inr tt
          ∧ AI_run env ("Chunk 1 for " +:+ documentId) = inr e1
          ∧ VECTORIZE_INDEX_upsert env (documentId +:+ "#1") e1 = inr tt))
  ∧ (reason ≠ "schema_change" → reason ≠ "model_update" → reason ≠ "policy_change" →
     reason ≠ "manual_reindex" →
     result = DocumentResult.mk documentId false
                (Some ("Unknown reprocessing reason: " +:+ reason))).
Proof.
  intros result. subst result. unfold processDocument.
  destruct (String.eqb_spec reason "schema_change") as [->|H1].
  { cbn. repeat split; try done; try by intros [? ?]. }
  destruct (String.eqb_spec reason "model_update") as [->|H2].
  { unfold handleModelUpdate, retrieveDocumentChunks. cbn [length Nat.eqb reembed].
    cbn [chunk_content chunk_id].
    destruct (AI_run env ("Chunk 0 for " +:+ documentId)) as [t0|e0] eqn:HA0; cbn [and_then].
    { cbn. repeat split; try done; try (by intros [? ?]); try (by eexists);
        try (by intros [?|[?|?]]).
      by intros (? & ? & ? & _). }
    destruct (VECTORIZE_INDEX_upsert env (documentId +:+ "#0") e0) as [t|[]] eqn:HU0;
      cbn [and_then].
    { cbn. repeat split; try done; try (by intros [? ?]); try (by eexists);
        try (by intros [?|[?|?]]).
      intros (? & ? & [= <-] & Hu & _). by rewrite HU0 in Hu. }
    destruct (AI_run env ("Chunk 1 for " +:+ documentId)) as [t1|e1] eqn:HA1; cbn [and_then].
    { cbn. repeat split; try done; try (by intros [? ?]); try (by eexists);
        try (by intros [?|[?|?]]).
      by intros (? & ? & _ & _ & ? & _). }
    destruct (VECTORIZE_INDEX_upsert env (documentId +:+ "#1") e1) as [t|[]] eqn:HU1;
      cbn [and_then].
    { cbn. repeat split; try done; try (by intros [? ?]); try (by eexists);
        try (by intros [?|[?|?]]).
      intros (? & ? & _ & _ & [= <-] & Hu). by rewrite HU1 in Hu. }
    cbn. repeat split; try done; try (by intros [? ?]); try (by intros [?|[?|?]]).
    intros _. by exists e0, e1. }
  destruct (String.eqb_spec reason "policy_change") as [->|H3].
  { cbn. repeat split; try done; try by intros [? ?]. }
  destruct (String.eqb_spec reason "manual_reindex") as [->|H4].
  { cbn. repeat split; try done; try by intros [? ?]. }
  cbn. repeat split; try done; try (by eexists); by intros [?|[?|?]].
Qed.

Lemma process_document_outcome_witness :
  processDocument flaky_env "a" "reindex"
  = DocumentResult.mk "a" false (Some "Unknown reprocessing reason: reindex").
Proof.
  apply (proj2 (proj2 (proj2 (proj2 (process_document_outcome flaky_env "a" "reindex")))));
    discriminate.
Defined.

Lemma no_failure_iff_all_succeed (outcomes : list DocumentResult) :
  length (List.filter failed_outcome outcomes) = 0%nat
  ↔ Forall (λ o, DocumentResult.success o = true) outcomes.
Proof.
  induction outcomes as [|o outcomes IH]; [by split; [constructor|]|].
  cbn [List.filter]. unfold failed_outcome at 1.
  destruct (DocumentResult.success o) eqn:Ho; cbn [negb].
  - rewrite IH. split; [by constructor|]. by intros [_ ?]%Forall_cons.
  - split; [done|]. intros [Hs _]%Forall_cons. congruence.
Qed.

Lemma processBatch_failureCount (env : Env) (payload : BatchReprocessPayload) :
  BatchResults.failureCount (processBatch env payload)
  = length (List.filter failed_outcome (document_outcomes env payload)).
Proof.
  unfold processBatch. rewrite processBatch_loop_fold by lia.
  change (Z.to_nat 0) with 0%nat. rewrite drop_0. fold (document_outcomes env payload).
  by rewrite aggregate_fold.
Qed.

(** X17. The result of [processBatchReprocess] reports success exactly when
    no document of the message failed, so a message without documents succeeds
    whatever its reason.  The result carries the message id and never an error
    object, not even when documents failed. *)
Theorem reprocess_result (env : Env) (startTime endTime : Z)
    (message : QueueMessage BatchReprocessPayload) :
  let reprocessed := processBatchReprocess env startTime endTime message in
  let result := rr_result reprocessed in
  (ProcessingResult.success result = true
   ↔ Forall (λ o, DocumentResult.success o = true)
       (document_outcomes env (QueueMessage.payload message)))
  ∧ (BatchReprocessPayload.documentIds (QueueMessage.payload message) = [] →
     ProcessingResult.success result = true)
  ∧ ProcessingResult.error result = None
  ∧ ProcessingResult.messageId result = correlationId (QueueMessage.metadata message)
  ∧ rr_batchResults reprocessed = processBatch env (QueueMessage.payload message).
Proof.
  intros reprocessed result. subst result reprocessed. unfold processBatchReprocess.
  cbn [rr_result rr_batchResults ProcessingResult.success ProcessingResult.error
       ProcessingResult.messageId].
  assert ((BatchResults.failureCount (processBatch env (QueueMessage.payload message))
           =? 0)%nat = true
          ↔ Forall (λ o, DocumentResult.success o = true)
              (document_outcomes env (QueueMessage.payload message))) as Hiff.
  { rewrite Nat.eqb_eq, processBatch_failureCount. apply no_failure_iff_all_succeed. }
  split; [exact Hiff|]. split; [|done].
  intros Hnil. apply Hiff. unfold document_outcomes. rewrite Hnil. constructor.
Qed.

Lemma reprocess_result_witness :
  ProcessingResult.success
    (rr_result (processBatchReprocess flaky_env 0 5
                  (reprocess_envelope
                     (Message.mk _ "r3" 2 (BatchReprocessPayload.mk [] "no_reason")))))
  = true.
Proof.
  apply (proj1 (proj2 (reprocess_result flaky_env 0 5
                         (reprocess_envelope
                            (Message.mk _ "r3" 2
                               (BatchReprocessPayload.mk [] "no_reason")))))).
  reflexivity.
Defined.

(** X18. A batch-reprocessing message is never redelivered on account of its
    documents: with [BatchProcessor] as the processor, [handleBatchReprocessing]
    acknowledges every message of every batch, whether its documents succeeded
    or failed and whatever made them fail. *)
Theorem reprocessing_always_acknowledges (env : Env)
    (times : QueueMessage BatchReprocessPayload → Z * Z)
    (messages : list (Message BatchReprocessPayload)) :
  handleBatchReprocessing (reprocessor env times) messages
  = map (λ m, (m, ack)) messages.
Proof.
  unfold handleBatchReprocessing. rewrite reprocess_messages_fold. cbn [app].
  apply map_ext. intros m. unfold reprocessor, spec_disposition, processBatchReprocess.
  cbn. by destruct (_ =? _)%nat.
Qed.

(** ** Text cleaning *)

Lemma is_newline_whitespace (c : ascii) : is_whitespace c = false → is_newline c = false.
Proof.
  intros Hc. unfold is_newline. destruct (Ascii.eqb_spec c "010") as [->|]; [|done].
  discriminate Hc.
Qed.

(** After the whitespace pass no line feed is left for the line-feed pass. *)
Lemma replace_newline_runs_after_whitespace (a b : bool) (s : string) :
  replace_newline_runs a (replace_whitespace_runs b s) = replace_whitespace_runs b s.
Proof.
  revert a b. induction s as [|c s IH]; intros a b; [done|].
  cbn [replace_whitespace_runs]. destruct (is_whitespace c) eqn:Hc.
  - destruct b; [apply IH|]. cbn [replace_newline_runs].
    change (is_newline " ") with false. cbn match. by rewrite IH.
  - cbn [replace_newline_runs]. rewrite (is_newline_whitespace _ Hc). by rewrite IH.
Qed.

Lemma trimStart_replace_true (s : string) :
  trimStart (replace_whitespace_runs true s) = replace_whitespace_runs true s.
Proof.
  induction s as [|c s IH]; [done|]. cbn [replace_whitespace_runs].
  destruct (is_whitespace c) eqn:Hc; [done|]. cbn [trimStart]. by rewrite Hc.
Qed.

Lemma trimStart_replace_false (s : string) :
  trimStart (replace_whitespace_runs false s) = replace_whitespace_runs true s.
Proof.
  destruct s as [|c s]; [done|]. cbn [replace_whitespace_runs].
  destruct (is_whitespace c) eqn:Hc.
  - cbn [trimStart]. change (is_whitespace " ") with true. cbn match.
    apply trimStart_replace_true.
  - cbn [trimStart]. by rewrite Hc.
Qed.

Lemma trimEnd_cons (c : ascii) (s : string) :
  is_whitespace c = false → trimEnd (String c s) = String c (trimEnd s).
Proof. intros Hc. cbn [trimEnd]. destruct (trimEnd s); [by rewrite Hc|done]. Qed.

Lemma split_go_true_empty_head (s : string) (pieces : list string) :
  split_go true s = EmptyString :: pieces → pieces = [].
Proof.
  induction s as [|c s IH]; cbn [split_go].
  - by intros [= <-].
  - destruct (is_whitespace c); [done|].
    destruct (split_go false s); discriminate.
Qed.

Lemma nonempty_append (p s : string) : nonempty p = true → p +:+ s ≠ "".
Proof. by destruct p. Qed.

(** Trimming the end of the whitespace-normalised text leaves the first piece
    followed by the remaining words, each after one space. *)
Lemma trimEnd_replace (b : bool) (s : string) :
  trimEnd (replace_whitespace_runs b s)
  = match split_go b s with
    | piece :: pieces => piece +:+ spaced pieces
    | [] => EmptyString
    end.
Proof.
  revert b. induction s as [|c s IH]; intros b; [done|].
  cbn [replace_whitespace_runs split_go]. destruct (is_whitespace c) eqn:Hc.
  - destruct b; [apply IH|]. specialize (IH true).
    cbn [trimEnd]. rewrite IH. change (is_whitespace " ") with true.
    destruct (split_go true s) as [|piece pieces] eqn:Hsplit; [done|].
    change ("" +:+ spaced (piece :: pieces)) with (spaced (piece :: pieces)).
    cbn [spaced]. destruct (nonempty piece) eqn:Hp.
    + pose proof (nonempty_append piece (spaced pieces) Hp).
      by destruct (piece +:+ spaced pieces).
    + destruct piece; [|done]. apply split_go_true_empty_head in Hsplit as ->. done.
  - rewrite trimEnd_cons by done. rewrite (IH false).
    by destruct (split_go false s).
Qed.

Lemma join_cons_spaced (piece : string) (pieces : list string) :
  join (piece :: List.filter nonempty pieces) = piece +:+ spaced pieces.
Proof.
  revert piece. induction pieces as [|p pieces IH]; intros piece.
  { cbn. by rewrite append_empty_r. }
  cbn [List.filter spaced]. destruct (nonempty p); [|apply IH].
  change (join (piece :: p :: List.filter nonempty pieces))
    with (piece +:+ String " " (join (p :: List.filter nonempty pieces))).
  by rewrite IH.
Qed.

Lemma words_split_go_true (s : string) :
  words s = List.filter nonempty (split_go true s).
Proof.
  unfold words, split_whitespace. destruct s as [|c s]; [done|].
  cbn [split_go]. by destruct (is_whitespace c).
Qed.

Lemma trim_replace_words (s : string) :
  trim (replace_whitespace_runs false s) = join (words s).
Proof.
  unfold trim. rewrite trimStart_replace_false, trimEnd_replace, words_split_go_true.
  pose proof (split_go_length true s) as Hlen.
  destruct (split_go true s) as [|piece pieces] eqn:Hsplit; [cbn in Hlen; lia|].
  cbn [List.filter]. destruct (nonempty piece) eqn:Hp.
  - by rewrite join_cons_spaced.
  - destruct piece; [|done]. by apply split_go_true_empty_head in Hsplit as ->.
Qed.

Lemma split_go_append (word s : string) :
  no_whitespace word = true →
  split_go false (word +:+ s)
  = match split_go false s with
    | piece :: pieces => (word +:+ piece) :: pieces
    | [] => [word]
    end.
Proof.
  induction word as [|c word IH]; intros Hw.
  { change ("" +:+ s) with s. pose proof (split_go_length false s) as Hlen.
    destruct (split_go false s); [cbn in Hlen; lia|done]. }
  cbn [no_whitespace] in Hw. apply andb_true_iff in Hw as [Hc Hw].
  apply negb_true_iff in Hc.
  change (String c word +:+ s) with (String c (word +:+ s)).
  cbn [split_go]. rewrite Hc, (IH Hw). by destruct (split_go false s).
Qed.

Lemma split_go_flag (b : bool) (c : ascii) (s : string) :
  is_whitespace c = false → split_go b (String c s) = split_go false (String c s).
Proof. intros Hc. cbn [split_go]. by rewrite Hc. Qed.

(** Splitting what was joined gives the words back. *)
Lemma split_join (pieces : list string) :
  pieces ≠ [] →
  Forall (λ w, nonempty w = true ∧ no_whitespace w = true) pieces →
  split_go false (join pieces) = pieces.
Proof.
  induction pieces as [|w pieces IH]; intros Hne Hall; [done|].
  apply Forall_cons in Hall as [[Hw Hws] Hall].
  destruct pieces as [|w' pieces].
  - change (join [w]) with w. rewrite <- (append_empty_r w) at 1.
    rewrite split_go_append by done. cbn. by rewrite append_empty_r.
  - change (join (w :: w' :: pieces)) with (w +:+ String " " (join (w' :: pieces))).
    rewrite split_go_append by done. cbn [split_go].
    change (is_whitespace " ") with true. cbn match.
    assert (split_go true (join (w' :: pieces)) = w' :: pieces) as ->.
    { rewrite <- IH at 2; [|done|done].
      apply Forall_cons in Hall as [[Hw' Hws'] _].
      destruct w' as [|c w']; [done|].
      cbn [no_whitespace] in Hws'. apply andb_true_iff in Hws' as [Hc _].
      apply negb_true_iff in Hc.
      assert (∃ rest, join (String c w' :: pieces) = String c rest) as [rest ->].
      { destruct pieces; by eexists. }
      by apply split_go_flag. }
    by rewrite append_empty_r.
Qed.

Lemma words_wellformed (s : string) :
  Forall (λ w, nonempty w = true ∧ no_whitespace w = true) (words s).
Proof.
  unfold words. apply Forall_forall. intros w Hin.
  apply list_elem_of_In, filter_In in Hin as [Hin Hne]. split; [done|].
  pose proof (split_go_no_whitespace false s) as Hall.
  rewrite Forall_forall in Hall. by apply Hall, list_elem_of_In.
Qed.

Lemma filter_nonempty_id (pieces : list string) :
  Forall (λ w, nonempty w = true ∧ no_whitespace w = true) pieces →
  List.filter nonempty pieces = pieces.
Proof.
  induction 1 as [|w pieces [Hw _] _ IH]; [done|]. cbn. by rewrite Hw, IH.
Qed.

Lemma words_join (pieces : list string) :
  Forall (λ w, nonempty w = true ∧ no_whitespace w = true) pieces →
  words (join pieces) = pieces.
Proof.
  intros Hall. destruct pieces as [|w pieces]; [done|].
  unfold words, split_whitespace. rewrite split_join by done.
  by apply filter_nonempty_id.
Qed.

(** X19. [cleanText] returns the words of the text, in order, separated by
    single spaces: nothing but whitespace is removed, no word is changed, and
    no word that is left is empty or holds whitespace.  Its line-feed pass
    never finds a line feed, so it computes the same text as [cleanText] of the
    ingest service; cleaning a cleaned text changes nothing. *)
Theorem cleanText_joins_the_words (text : string) :
  cleanText text = join (words text)
  ∧ Forall (λ w, w ≠ "" ∧ no_whitespace w = true) (words text)
  ∧ ingest_cleanText text = cleanText text
  ∧ cleanText (cleanText text) = cleanText text
  ∧ words (cleanText text) = words text.
Proof.
  assert (∀ s, cleanText s = join (words s)) as Hclean.
  { intros s. unfold cleanText. rewrite replace_newline_runs_after_whitespace.
    apply trim_replace_words. }
  split; [apply Hclean|]. split.
  { eapply Forall_impl; [apply words_wellformed|]. intros w [Hw ?]. split; [|done].
    by destruct w. }
  split.
  { rewrite Hclean. apply trim_replace_words. }
  assert (words (cleanText text) = words text) as Hwords.
  { rewrite Hclean. apply words_join, words_wellformed. }
  split; [|done]. by rewrite (Hclean (cleanText text)), Hwords, Hclean.
Qed.

(** ** Chunking *)

(** Joining the pieces of a text back gives the text with every run of
    whitespace replaced by one space. *)
Lemma join_split_go (b : bool) (s : string) :
  join (split_go b s) = replace_whitespace_runs b s.
Proof.
  revert b. induction s as [|c s IH]; intros b; [done|].
  cbn [split_go replace_whitespace_runs]. destruct (is_whitespace c).
  - destruct b; [apply IH|]. rewrite <- (IH true).
    pose proof (split_go_length true s) as Hlen.
    destruct (split_go true s); [cbn in Hlen; lia|done].
  - rewrite <- (IH false). pose proof (split_go_length false s) as Hlen.
    destruct (split_go false s) as [|piece [|piece' pieces]]; [cbn in Hlen; lia|done..].
Qed.

Lemma replace_whitespace_runs_cleanText (raw : string) :
  replace_whitespace_runs false (cleanText raw) = cleanText raw.
Proof.
  assert (cleanText raw = join (words raw)) as ->.
  { unfold cleanText. rewrite replace_newline_runs_after_whitespace.
    apply trim_replace_words. }
  rewrite <- join_split_go. destruct (words raw) as [|w pieces] eqn:Hwords; [done|].
  rewrite split_join; [done|done|]. rewrite <- Hwords. apply words_wellformed.
Qed.

Lemma slice_all {A} (l : list A) (size : Z) :
  Z.of_nat (length l) ≤ size → slice l 0 (0 + size) = l.
Proof.
  intros Hsize. rewrite slice_window by lia. cbn [Z.to_nat drop].
  apply take_ge. lia.
Qed.

(** X20. A text of at most [chunkSize] words is returned as one chunk,
    whatever the overlap: the text with every run of whitespace replaced by
    one space.  For a text that [cleanText] has produced, as in
    [processDocumentIngestion], the chunk is the text itself. *)
Theorem short_text_is_one_chunk (text : string) (chunkSize overlap : option Z)
    (fuel : nat) :
  Z.of_nat (length (split_whitespace text)) ≤ default 1000 chunkSize →
  chunkText (S fuel) text chunkSize overlap = Some [replace_whitespace_runs false text]
  ∧ (∀ raw, text = cleanText raw →
       chunkText (S fuel) text chunkSize overlap = Some [text]).
Proof.
  intros Hshort.
  assert (chunkText (S fuel) text chunkSize overlap
          = Some [replace_whitespace_runs false text]) as Hrun.
  { unfold chunkText. cbn [chunkText_loop].
    pose proof (split_go_length false text) as Hlen. fold (split_whitespace text) in Hlen.
    destruct (Z.ltb_spec 0 (Z.of_nat (length (split_whitespace text)))); [|lia].
    destruct (Z.geb_spec (0 + default 1000 chunkSize)
                (Z.of_nat (length (split_whitespace text)))); [|lia].
    rewrite slice_all by done. cbn [app]. unfold split_whitespace.
    by rewrite join_split_go. }
  split; [done|]. intros raw ->. rewrite Hrun.
  by rewrite replace_whitespace_runs_cleanText.
Qed.

Lemma short_text_is_one_chunk_witness :
  chunkText 1 "alpha  beta" None (Some 5000) = Some ["alpha beta"].
Proof.
  apply (short_text_is_one_chunk "alpha  beta" None (Some 5000) 0). vm_compute.
  discriminate.
Defined.

(** With [chunkSize ≤ overlap] the index never grows: it stays at or below
    zero, and no window of [chunkSize] words from there reaches the end of a
    longer text. *)
Lemma chunkText_loop_never_returns (fuel : nat) (words : list string)
    (chunkSize overlap i : Z) (chunks : list string) :
  chunkSize ≤ overlap → chunkSize < Z.of_nat (length words) → words ≠ [] → i ≤ 0 →
  chunkText_loop fuel words chunkSize overlap i chunks = None.
Proof.
  intros Hstep Hlong Hwords. revert i chunks.
  assert (0 < Z.of_nat (length words)) by (destruct words; [done|cbn [length]; lia]).
  induction fuel as [|fuel IH]; intros i chunks Hi; [done|].
  cbn [chunkText_loop].
  destruct (Z.ltb_spec i (Z.of_nat (length words))); [|lia].
  destruct (Z.geb_spec (i + chunkSize) (Z.of_nat (length words))); [lia|].
  apply IH. lia.
Qed.

Lemma chunkText_never_returns (text : string) (chunkSize overlap : option Z)
    (fuel : nat) :
  default 1000 chunkSize ≤ default 200 overlap →
  default 1000 chunkSize < Z.of_nat (length (split_whitespace text)) →
  chunkText fuel text chunkSize overlap = None.
Proof.
  intros Hstep Hlong. unfold chunkText.
  apply chunkText_loop_never_returns; [done..| |done].
  pose proof (split_go_length false text) as Hlen. unfold split_whitespace.
  destruct (split_go false text); [cbn in Hlen; lia|done].
Qed.

(** X21. When the overlap is not smaller than the chunk size, [chunkText]
    never returns on a text of more than [chunkSize] words: the loop goes on
    pushing chunks for as long as it is run. *)
Theorem chunkText_diverges_on_large_overlap (text : string)
    (chunkSize overlap : option Z) (fuel : nat) :
  default 1000 chunkSize ≤ default 200 overlap →
  default 1000 chunkSize < Z.of_nat (length (split_whitespace text)) →
  chunkText fuel text chunkSize overlap = None.
Proof. apply chunkText_never_returns. Qed.

Lemma chunkText_diverges_on_large_overlap_witness :
  chunkText 1000 "a b c" (Some 2) (Some 2) = None.
Proof.
  apply (chunkText_diverges_on_large_overlap "a b c" (Some 2) (Some 2) 1000).
  - vm_compute. discriminate.
  - vm_compute. reflexivity.
Defined.

Lemma chunkText_loop_windows (fuel : nat) (words : list string)
    (chunkSize overlap i : Z) (chunks : list string) :
  chunkSize > overlap → overlap >= 0 → 0 ≤ i < Z.of_nat (length words) →
  (Z.to_nat (Z.of_nat (length words) - i) < fuel)%nat →
  ∃ n : nat,
    chunkText_loop fuel words chunkSize overlap i chunks
    = Some (chunks
            ++ map (λ k : nat,
                      join (slice words (i + Z.of_nat k * (chunkSize - overlap))
                              (i + Z.of_nat k * (chunkSize - overlap) + chunkSize)))
                   (seq 0 (S n)))
    ∧ Z.of_nat (length words) ≤ i + Z.of_nat n * (chunkSize - overlap) + chunkSize
    ∧ ∀ k : nat, (k < n)%nat →
        i + Z.of_nat k * (chunkSize - overlap) + chunkSize < Z.of_nat (length words).
Proof.
  intros Hstep Hov. revert i chunks.
  induction fuel as [|fuel IH]; intros i chunks Hi Hfuel; [lia|].
  cbn [chunkText_loop]. destruct (Z.ltb_spec i (Z.of_nat (length words))); [|lia].
  destruct (Z.geb_spec (i + chunkSize) (Z.of_nat (length words))) as [Hend|Hmore].
  - exists 0%nat. cbn [seq map Z.of_nat]. rewrite Z.mul_0_l, Z.add_0_r.
    split; [done|]. split; [lia|]. intros k Hk. lia.
  - destruct (IH (i + (chunkSize - overlap))
                (chunks ++ [join (slice words i (i + chunkSize))]))
      as (n & Hrun & Hlast & Hbefore); [lia|lia|].
    exists (S n). rewrite Hrun, <- app_assoc. split; [|split].
    + do 2 f_equal. change (seq 0 (S (S n))) with (0%nat :: seq 1 (S n)).
      rewrite <- (seq_shift (S n) 0), map_cons, map_map.
      change (Z.of_nat 0) with 0. rewrite Z.mul_0_l, Z.add_0_r. cbn [app]. f_equal.
      apply map_ext. intros k. do 2 f_equal; lia.
    + lia.
    + intros [|k] Hk; [lia|]. specialize (Hbefore k). lia.
Qed.

(** X22. With integers [chunkSize > overlap ≥ 0] the chunks of a text are the
    windows of [chunkSize] words that start every [chunkSize - overlap] words
    from the first word on.  The last window is the first one that reaches the end of
    the text, and every word of the text lies in at least one window. *)
Theorem chunks_are_sliding_windows (text : string) (chunkSize overlap : option Z) :
  let size := default 1000 chunkSize in
  let step := size - default 200 overlap in
  let count := Z.of_nat (length (split_whitespace text)) in
  size > default 200 overlap →
  default 200 overlap >= 0 →
  ∃ n : nat,
    (∀ fuel, (length (split_whitespace text) < fuel)%nat →
       chunkText fuel text chunkSize overlap
       = Some (map (window (split_whitespace text) size step) (seq 0 (S n))))
    ∧ count ≤ Z.of_nat n * step + size
    ∧ (∀ k : nat, (k < n)%nat → Z.of_nat k * step + size < count)
    ∧ (∀ j, 0 ≤ j < count →
         ∃ k : nat, (k ≤ n)%nat ∧ Z.of_nat k * step ≤ j < Z.of_nat k * step + size).
Proof.
  intros size step count Hstep Hov. subst size step count.
  set (size := default 1000 chunkSize) in *. set (ov := default 200 overlap) in *.
  pose proof (split_go_length false text) as Hlen. fold (split_whitespace text) in Hlen.
  destruct (chunkText_loop_windows (S (length (split_whitespace text)))
              (split_whitespace text) size ov 0 [] Hstep Hov)
    as (n & Hrun & Hlast & Hbefore); [lia|lia|].
  exists n. split; [|split; [lia|split]].
  - intros fuel Hfuel. unfold chunkText. fold size ov.
    eapply chunkText_loop_fuel; [exact Hrun|lia].
  - intros k Hk. specialize (Hbefore k Hk). lia.
  - intros j Hj.
    assert (0 < size - ov) as Hpos by lia.
    pose proof (Z.mul_div_le j (size - ov) Hpos) as Hlow.
    pose proof (Z.mul_succ_div_gt j (size - ov) Hpos) as Hhigh.
    assert (0 ≤ j / (size - ov)) as Hq by (apply Z.div_pos; lia).
    destruct (Z_le_gt_dec (j / (size - ov)) (Z.of_nat n)) as [Hin|Hout].
    + exists (Z.to_nat (j / (size - ov))). rewrite Z2Nat.id by done.
      split; [lia|]. nia.
    + exists n. split; [lia|]. nia.
Qed.

Lemma chunks_are_sliding_windows_witness :
  ∃ n : nat,
    (∀ fuel, (length (split_whitespace "a b c d e f g") < fuel)%nat →
       chunkText fuel "a b c d e f g" (Some 3) (Some 1)
       = Some (map (window (split_whitespace "a b c d e f g") 3 (3 - 1)) (seq 0 (S n))))
    ∧ Z.of_nat (length (split_whitespace "a b c d e f g")) ≤ Z.of_nat n * (3 - 1) + 3
    ∧ (∀ k : nat, (k < n)%nat →
         Z.of_nat k * (3 - 1) + 3 < Z.of_nat (length (split_whitespace "a b c d e f g")))
    ∧ (∀ j, 0 ≤ j < Z.of_nat (length (split_whitespace "a b c d e f g")) →
         ∃ k : nat, (k ≤ n)%nat ∧ Z.of_nat k * (3 - 1) ≤ j < Z.of_nat k * (3 - 1) + 3).
Proof.
  apply (chunks_are_sliding_windows "a b c d e f g" (Some 3) (Some 1)).
  - reflexivity.
  - discriminate.
Defined.


(** ** The document processor *)

(** X23. [processDocumentIngestion] rejects for every message.  The call that
    acquires the lock rejects with the [TypeError] of the coordinator; the
    outer [catch] block then tries to record the failure, and that call
    rejects in the same way, out of the function.  No storage of the fleet is
    changed. *)
Theorem ingestion_always_rejects (workerId randomUUID : string)
    (generateContentHash : string → string) (now : Site → nat → Z)
    (store_chunk : nat → string → option Thrown) (progressPercentage : nat → nat → Z)
    (fuel : nat) (chunks_overflow : Thrown)
    (message : QueueMessage DocumentIngestionPayload) (fleet : Coordinators) :
  let run :=
    processDocumentIngestion workerId randomUUID generateContentHash now store_chunk
      progressPercentage fuel chunks_overflow message fleet in
  run.2 = inl TypeError_undefined_storage
  ∧ ∀ name, storage_of name run.1 = storage_of name fleet.
Proof.
  cbn zeta. unfold processDocumentIngestion, try_catch, mbind, Run_bind.
  rewrite acquireProcessingLock_rejects, updateProcessingState_rejects. cbn [fst snd].
  split; [done|]. intros name. by rewrite !storage_of_refresh.
Qed.

Section IngestionBatch.

Context {Payload : Type}.
Variable processor : QueueMessage Payload → Outcome.
Hypothesis processor_throws : ∀ message, ∃ thrown, processor message = Throws thrown.

Lemma process_message_throws (acc : Dispatch) (message : Message Payload) :
  let after := process_message processor acc message in
  successCount after.1 = successCount acc.1.
Proof.
  destruct acc as [r calls]. unfold process_message.
  destruct (processor_throws (envelope message)) as [thrown ->]. done.
Qed.

Lemma process_messages_throw (messages : list (Message Payload)) (acc : Dispatch) :
  successCount (foldl (process_message processor) acc messages).1 = successCount acc.1.
Proof.
  revert acc. induction messages as [|m messages IH]; intros acc; [done|].
  cbn [foldl]. by rewrite IH, process_message_throws.
Qed.

Lemma handleDocumentIngestion_throws (startTime endTime : Z)
    (messages : list (Message Payload)) :
  let after := handleDocumentIngestion processor startTime endTime messages in
  after.2 = map (λ m, (m, retry)) messages
  ∧ successCount after.1 = 0%nat
  ∧ failureCount after.1 = length messages.
Proof.
  cbn zeta.
  destruct (handleDocumentIngestion_fold processor startTime endTime messages)
    as (Hcalls & _ & Hsum).
  assert (successCount
            (handleDocumentIngestion processor startTime endTime messages).1 = 0%nat)
    as Hnone.
  { unfold handleDocumentIngestion. rewrite foldl_chunks.
    pose proof (process_messages_throw
                  (concat (chunk_loop (length messages) messages
                             (Z.min (Z.of_nat (length messages)) 5) 0))
                  ({| totalMessages := length messages; successCount := 0;
                      failureCount := 0; results := []; totalProcessingTime := 0;
                      errors := [] |}, [])) as Hkeep.
    destruct (foldl _ _ _) as [r calls]. exact Hkeep. }
  split; [|split; [done|lia]].
  rewrite Hcalls. apply map_ext. intros m.
  by destruct (processor_throws (envelope m)) as [thrown ->].
Qed.

End IngestionBatch.

(** X24. With [DocumentProcessor] as it is, [handleDocumentIngestion] retries
    every message of every batch, whatever the documents and whatever the
    storages of the coordinators hold when a message is processed: no message
    is acknowledged, [successCount] is 0 and [failureCount] is the size of the
    batch. *)
Theorem ingestion_batch_is_retried_whole (workerId randomUUID : string)
    (generateContentHash : string → string) (now : Site → nat → Z)
    (store_chunk : nat → string → option Thrown) (progressPercentage : nat → nat → Z)
    (fuel : nat) (chunks_overflow : Thrown)
    (fleet_at : QueueMessage DocumentIngestionPayload → Coordinators)
    (startTime endTime : Z) (messages : list (Message DocumentIngestionPayload)) :
  let processor message :=
    ingestion_outcome workerId randomUUID generateContentHash now store_chunk
      progressPercentage fuel chunks_overflow (fleet_at message) message in
  let after := handleDocumentIngestion processor startTime endTime messages in
  after.2 ≡ₚ map (λ m, (m, retry)) messages
  ∧ successCount after.1 = 0%nat
  ∧ failureCount after.1 = length messages.
Proof.
  intros processor after.
  destruct (handleDocumentIngestion_throws processor) with (startTime := startTime)
    (endTime := endTime) (messages := messages) as (Hcalls & Hnone & Hall).
  { intros message. by exists TypeError_undefined_storage. }
  subst after. by rewrite Hcalls.
Qed.

(** ** Error classification *)

Lemma startsWith_append (s searchString post : string) :
  startsWith s searchString = true → startsWith (s +:+ post) searchString = true.
Proof.
  revert s. induction searchString as [|c p IH]; intros s; [done|].
  destruct s as [|c' s]; [done|].
  change (String c' s +:+ post) with (String c' (s +:+ post)). cbn [startsWith].
  intros [-> Hs]%andb_true_iff. by rewrite (IH _ Hs).
Qed.

Lemma includes_append_r (s searchString post : string) :
  includes s searchString = true → includes (s +:+ post) searchString = true.
Proof.
  induction s as [|c s IH].
  - cbn [includes]. rewrite orb_false_r. intros Hs.
    destruct searchString; [|done]. by destruct post.
  - change (String c s +:+ post) with (String c (s +:+ post)). cbn [includes].
    intros [Hs|Hs]%orb_true_iff.
    + pose proof (startsWith_append (String c s) searchString post Hs) as Hpost.
      change (String c s +:+ post) with (String c (s +:+ post)) in Hpost.
      by rewrite Hpost.
    + rewrite (IH Hs). apply orb_true_r.
Qed.

Lemma includes_append_l (pre s searchString : string) :
  includes s searchString = true → includes (pre +:+ s) searchString = true.
Proof.
  intros Hs. induction pre as [|c pre IH]; [done|].
  change (String c pre +:+ s) with (String c (pre +:+ s)). cbn [includes].
  rewrite IH. apply orb_true_r.
Qed.

Lemma includes_embedded (pre s post searchString : string) :
  includes s searchString = true →
  includes (pre +:+ s +:+ post) searchString = true.
Proof. intros Hs. by apply includes_append_l, includes_append_r. Qed.

(** X30. The classification of errors looks for its markers anywhere in the
    message: an error whose message embeds the message of a retryable error
    is retryable too.  And whatever the document and batch processors would
    retry, the webhook processor, which also accepts [429], retries as well. *)
Theorem retryable_message_stays_retryable (message pre post : string) :
  isRetryableError (ErrorObject message) = true →
  isRetryableError (ErrorObject (pre +:+ message +:+ post)) = true
  ∧ isRetryableWebhookError (ErrorObject (pre +:+ message +:+ post)) = true.
Proof.
  unfold isRetryableError, isRetryableWebhookError. intros Hretry.
  repeat apply orb_true_iff in Hretry as [Hretry|Hretry];
    rewrite (includes_embedded pre message post _ Hretry);
    rewrite ?orb_true_r; done.
Qed.

Lemma retryable_message_stays_retryable_witness :
  isRetryableError (ErrorObject "Failed to store chunk: network unreachable (attempt 2)")
  = true.
Proof.
  apply (retryable_message_stays_retryable "network unreachable"
           "Failed to store chunk: " " (attempt 2)").
  reflexivity.
Defined.
